(** * ecc: prime-order group abstraction, scalars and elements

    A shallow embedding of the Go packages [ecc], [internal/edwards25519],
    [internal/ristretto] and [internal/secp256k1], over models of the
    external arithmetic providers they wrap, with the scalar encoding of
    [internal/nist].

    Conventions of the embedding:
    - a Go method that mutates its receiver and returns it is a function from
      the receiver's state (and the arguments) to the new state;
    - a nilable pointer or interface argument is an [option];
    - [panic(err)] is the [Panic] outcome of the [outcome] monad;
    - an [error] result is an [option internal.error] ([None] is Go's nil);
    - byte strings are lists of [byte], read as integers with coqutil's
      little-endian [le_combine]/[le_split];
    - a [uint64] is a 64-bit machine word of coqutil. *)

From Stdlib Require Import String.
From Stdlib Require Import ZArith List Lia Bool Zpow_facts.
From coqutil Require Import Byte Word.Interface Word.Properties Word.Naive.
From coqutil Require Import Word.LittleEndianList.
Import ListNotations.
Local Open Scope string_scope.
Local Open Scope list_scope.
Local Open Scope Z_scope.

(** ** Package [internal]: errors and the panic discipline *)

Module internal.

(** Modelled from the spec: the sentinel errors of package [internal], whose
    declarations are not among the files at hand; one constructor for each
    sentinel the backends refer to, all distinct (spec, section 7). To them
    are added the errors created by the external arithmetic providers
    ([External], identified by their message) and the wrapping done by
    [fmt.Errorf(prefix + "%w", err)]. *)
Inductive error : Type :=
| ErrParamNilScalar
| ErrParamScalarLength
| ErrParamScalarInvalidEncoding
| ErrParamNilPoint
| ErrParamInvalidPointEncoding
| ErrCastElement
| ErrCastScalar
| ErrIdentity
| ErrUInt64TooBig
| External (msg : string)
| Errorf (prefix : string) (e : error).

Definition error_eq_dec (a b : error) : {a = b} + {a <> b}.
Proof. decide equality; apply string_dec. Defined.

(** [errors.Is(err, target)]: [err] or one of the errors it wraps is
    [target]. *)
Fixpoint Is (err target : error) : bool :=
  if error_eq_dec err target then true
  else match err with
       | Errorf _ e => Is e target
       | _ => false
       end.

(** A computation that either returns or panics. *)
Inductive outcome (A : Type) : Type :=
| Return (a : A)
| Panic (e : error).
Arguments Return {A} a.
Arguments Panic {A} e.

Definition bind {A B : Type} (m : outcome A) (k : A -> outcome B) : outcome B :=
  match m with
  | Return a => k a
  | Panic e => Panic e
  end.

(** [err.Error() == msg] on the error of a provider, which is identified
    by its message. *)
Definition has_message (err : error) (msg : string) : bool :=
  match err with
  | External m => String.eqb m msg
  | _ => false
  end.

(** The dynamic values of the interface [internal.Scalar] that the public
    scalar is built on here: a pointer to the [Scalar] struct of one of the
    two little-endian backend packages, whose single field is the provider's
    scalar. The scalars of the secp256k1 backend are the [Own] operands of
    module [secp256k1] below. *)
Inductive Scalar : Type :=
| Ristretto255 (scalar : Z)
| Edwards25519 (scalar : Z).

(** Modelled from the spec: [internal.RandomBytes(length)], declared outside
    the files at hand, returns [length] bytes of the secure entropy source.
    The source is a stream of bytes that each call consumes from the front;
    [None] stands for a stream with fewer bytes left than asked for. *)
Definition RandomBytes (length : nat) (entropy : list byte)
  : option (list byte * list byte) :=
  if Nat.leb length (List.length entropy)
  then Some (firstn length entropy, skipn length entropy)
  else None.

End internal.

Import internal.

Notation "x <- m ;; k" := (internal.bind m (fun x => k))
  (at level 61, m at next level, right associativity).

(** Go's [b[i]] on a byte slice; every index used below is within bounds. *)
Definition index (b : list byte) (i : nat) : byte := nth i b Byte.x00.

(** The integer value of a byte, in [[0, 256)]. *)
Definition u8 (b : byte) : Z := byte.unsigned b.

(** [a | b] on bytes. *)
Definition byte_or (a b : byte) : byte := byte.of_Z (Z.lor (u8 a) (u8 b)).

(** Go's [encoding/binary], on the first 8 bytes of a slice. *)
Module binary.

(** [binary.LittleEndian.PutUint64(b, i)]: the first 8 bytes of [b] are
    overwritten. *)
Definition LittleEndian_PutUint64 (b : list byte) (i : Naive.word64)
  : list byte :=
  le_split 8 (word.unsigned i) ++ skipn 8 b.

Definition LittleEndian_Uint64 (b : list byte) : Naive.word64 :=
  word.of_Z (le_combine (firstn 8 b)).

Definition BigEndian_Uint64 (b : list byte) : Naive.word64 :=
  word.of_Z (le_combine (rev (firstn 8 b))).

End binary.

(** Go's [encoding/hex]; a Go string is its sequence of bytes. *)
Module hex.

Definition hextable : list byte :=
  list_byte_of_string "0123456789abcdef".

Definition upperhex : list byte :=
  list_byte_of_string "0123456789ABCDEF".

Definition ErrLength : error :=
  External "encoding/hex: odd length hex string".

(** [strconv.IsPrint] on a rune below 256. *)
Definition IsPrint (r : Z) : bool :=
  ((32 <=? r) && (r <? 127)) || ((161 <=? r) && negb (r =? 173)).

(** The UTF-8 encoding of a rune below 256. *)
Definition utf8 (r : Z) : list byte :=
  if r <? 128 then [byte.of_Z r]
  else [byte.of_Z (Z.lor 192 (Z.shiftr r 6));
        byte.of_Z (Z.lor 128 (Z.land r 63))].

(** [fmt.Sprintf("%#U", rune(b))] *)
Definition sharpU (b : byte) : string :=
  let r := u8 b in
  string_of_list_byte
    (list_byte_of_string "U+00"
     ++ [index upperhex (Z.to_nat (Z.shiftr r 4));
         index upperhex (Z.to_nat (Z.land r 15))]
     ++ (if IsPrint r
         then list_byte_of_string " '" ++ utf8 r ++ list_byte_of_string "'"
         else [])).

Definition InvalidByteError (b : byte) : error :=
  External ("encoding/hex: invalid byte: " ++ sharpU b).

(** [reverseHexTable]: the value of a hexadecimal digit of either case, 255
    for any other byte. *)
Definition reverseHexTable (c : byte) : Z :=
  let v := u8 c in
  if (48 <=? v) && (v <=? 57) then v - 48
  else if (97 <=? v) && (v <=? 102) then v - 97 + 10
  else if (65 <=? v) && (v <=? 70) then v - 65 + 10
  else 255.

Fixpoint Encode (src : list byte) : list byte :=
  match src with
  | [] => []
  | v :: rest =>
      index hextable (Z.to_nat (Z.shiftr (u8 v) 4))
      :: index hextable (Z.to_nat (Z.land (u8 v) 15))
      :: Encode rest
  end.

Definition EncodeToString (src : list byte) : string :=
  string_of_list_byte (Encode src).

(** [Decode]: the bytes decoded before the first error, and the error. An
    invalid character is reported before an odd length. *)
Fixpoint Decode (src : list byte) : list byte * option error :=
  match src with
  | [] => ([], None)
  | [p] =>
      if reverseHexTable p >? 15 then ([], Some (InvalidByteError p))
      else ([], Some ErrLength)
  | p :: q :: rest =>
      let a := reverseHexTable p in
      let b := reverseHexTable q in
      if a >? 15 then ([], Some (InvalidByteError p))
      else if b >? 15 then ([], Some (InvalidByteError q))
      else
        let '(dst, err) := Decode rest in
        (byte.of_Z (Z.lor (Z.shiftl a 4) b) :: dst, err)
  end.

Definition DecodeString (s : string) : list byte * option error :=
  Decode (list_byte_of_string s).

End hex.

(** ** External providers of arithmetic *)

(** Modelled from the spec: the contract of the provider
    [filippo.io/edwards25519], which is external to the repository. Scalars
    are the integers of [[0, l)] with the arithmetic modulo the prime order
    [l]; their canonical encoding is the 32-byte little-endian one, and
    [SetCanonicalBytes] rejects any other length and any magnitude that is
    not below [l] (spec, sections 3 and 6). *)
Module ed.

Definition l : Z := 2 ^ 252 + 27742317777372353535851937790883648493.

Definition Scalar : Type := Z.

Definition NewScalar : Scalar := 0.
Definition Set_ (x : Scalar) : Scalar := x.
Definition Add (x y : Scalar) : Scalar := (x + y) mod l.
Definition Subtract (x y : Scalar) : Scalar := (x - y) mod l.
Definition Multiply (x y : Scalar) : Scalar := (x * y) mod l.
Definition Equal (x y : Scalar) : Z := if x =? y then 1 else 0.
Definition Bytes (s : Scalar) : list byte := le_split 32 s.

(** [SetCanonicalBytes]: on an error the receiver is unchanged. *)
Definition SetCanonicalBytes (s : Scalar) (x : list byte)
  : Scalar * option error :=
  if negb (Nat.eqb (length x) 32) then
    (s, Some (External "invalid scalar length"))
  else if l <=? le_combine x then
    (s, Some (External "invalid scalar encoding"))
  else (le_combine x, None).

(** [SetUniformBytes]: the 64-byte little-endian integer reduced modulo
    [l]; on an input of another length an error, the receiver unchanged. *)
Definition SetUniformBytes (s : Scalar) (x : list byte)
  : Scalar * option error :=
  if negb (Nat.eqb (length x) 64) then
    (s, Some (External "edwards25519: invalid SetUniformBytes input length"))
  else (le_combine x mod l, None).

(** The points of the provider: an opaque type with the group law, the
    equality test and the 32-byte compressed encoding. [SetBytes] returns
    the receiver unchanged together with an error when it rejects its
    input. *)
Class PointProvider : Type := {
  Point : Type;
  NewIdentityPoint : Point;
  NewGeneratorPoint : Point;
  Point_Add : Point -> Point -> Point;
  Point_Subtract : Point -> Point -> Point;
  Point_Negate : Point -> Point;
  ScalarMult : Scalar -> Point -> Point;
  Point_Equal : Point -> Point -> Z;
  Point_Bytes : Point -> list byte;
  BytesMontgomery : Point -> list byte;
  SetBytes : Point -> list byte -> Point * option error
}.

End ed.

(** Modelled from the spec: the contract of the provider
    [github.com/gtank/ristretto255], external to the repository: the same
    scalar field and encoding, with [Encode] appending the 32 little-endian
    bytes to its argument. *)
Module ristretto255.

Definition Scalar : Type := Z.

Definition NewScalar : Scalar := 0.
Definition Zero (s : Scalar) : Scalar := 0.
Definition Add (x y : Scalar) : Scalar := (x + y) mod ed.l.
Definition Subtract (x y : Scalar) : Scalar := (x - y) mod ed.l.
Definition Multiply (x y : Scalar) : Scalar := (x * y) mod ed.l.
Definition Equal (x y : Scalar) : Z := if x =? y then 1 else 0.
Definition Encode (s : Scalar) (b : list byte) : list byte :=
  b ++ le_split 32 s.

Definition Decode (s : Scalar) (x : list byte) : Scalar * option error :=
  if negb (Nat.eqb (length x) 32) then
    (s, Some (External "invalid scalar length"))
  else if ed.l <=? le_combine x then
    (s, Some (External "invalid scalar encoding"))
  else (le_combine x, None).

(** [FromUniformBytes]: the 64-byte little-endian integer reduced modulo
    the order; it panics on an input of another length. *)
Definition FromUniformBytes (s : Scalar) (x : list byte) : outcome Scalar :=
  if negb (Nat.eqb (length x) 64) then
    Panic (External "ristretto255: FromUniformBytes: input is not 64 bytes long")
  else Return (le_combine x mod ed.l).

End ristretto255.

(** Modelled from the spec: the contract of the provider
    [github.com/0xBridge/secp256k1], external to the repository: scalars are
    integers modulo the order of secp256k1, encoded on 32 bytes in big-endian
    order, and every 64-bit value is below the order (spec, sections 3 and
    4.2). *)
Module secp256k1_provider.

Definition order : Z :=
  2 ^ 256 - 432420386565659656852420866394968145599.

Definition Scalar : Type := Z.

Definition NewScalar : Scalar := 0.
Definition SetUInt64 (s : Scalar) (i : Naive.word64) : Scalar :=
  word.unsigned i mod order.
Definition Encode (s : Scalar) : list byte := rev (le_split 32 s).

Definition Zero (s : Scalar) : Scalar := 0.
Definition One (s : Scalar) : Scalar := 1.
Definition Add (x y : Scalar) : Scalar := (x + y) mod order.
Definition Subtract (x y : Scalar) : Scalar := (x - y) mod order.
Definition Multiply (x y : Scalar) : Scalar := (x * y) mod order.
Definition Pow (x y : Scalar) : Scalar := x ^ y mod order.
Definition Equal (x y : Scalar) : Z := if x =? y then 1 else 0.
Definition LessOrEqual (x y : Scalar) : Z := if x <=? y then 1 else 0.
Definition IsZero (x : Scalar) : bool := x =? 0.
Definition Set_ (x y : Scalar) : Scalar := y.

(** [Decode]: the big-endian integer of a 32-byte input that is below the
    order. A magnitude that is not below the order is refused with the error
    whose message is "scalar too big", the message the wrapper compares
    with; any other byte count with an error of the provider whose message
    is the one the tests of the repository expect from [Decode] on a 2-byte
    input in every group. On an error the receiver is unchanged. *)
Definition Decode (s : Scalar) (x : list byte) : Scalar * option error :=
  if negb (Nat.eqb (length x) 32) then
    (s, Some (External "invalid scalar length"))
  else if order <=? le_combine (rev x) then
    (s, Some (External "scalar too big"))
  else (le_combine (rev x), None).

End secp256k1_provider.

(** An executable instance of [ed.PointProvider]: the affine points of the
    twisted Edwards curve [-x^2 + y^2 = 1 + d x^2 y^2] over the integers
    modulo [2^255 - 19], with the compressed encoding as the provider
    decodes it (the top bit of the last byte is the sign of [x]; the
    encoding of [y] is not required to be reduced). *)
Module affine.

Definition p : Z := 2 ^ 255 - 19.
Definition d : Z :=
  37095705934669439343138083508754565189542113879843219016388785533085940283555.
Definition sqrtM1 : Z :=
  19681161376707505956807079304988542015446066515923890162744021073123829784752.

Definition fadd (a b : Z) : Z := (a + b) mod p.
Definition fsub (a b : Z) : Z := (a - b) mod p.
Definition fmul (a b : Z) : Z := (a * b) mod p.
Definition fneg (a : Z) : Z := (- a) mod p.
Definition fpow (a e : Z) : Z := Zpow_mod a e p.
Definition finv (a : Z) : Z := fpow a (p - 2).
Definition fabs (a : Z) : Z := if Z.odd a then fneg a else a.

(** The non-negative square root of [u / v], and whether there is one. *)
Definition SqrtRatio (u v : Z) : Z * bool :=
  let v2 := fmul v v in
  let uv3 := fmul u (fmul v2 v) in
  let uv7 := fmul uv3 (fmul v2 v2) in
  let rr := fmul uv3 (fpow uv7 ((p - 5) / 8)) in
  let check := fmul v (fmul rr rr) in
  let uNeg := fneg u in
  let correctSignSqrt := check =? u in
  let flippedSignSqrt := check =? uNeg in
  let flippedSignSqrtI := check =? fmul uNeg sqrtM1 in
  let rPrime := fmul rr sqrtM1 in
  let rr := if flippedSignSqrt || flippedSignSqrtI then rPrime else rr in
  (fabs rr, correctSignSqrt || flippedSignSqrt).

Definition Point : Type := Z * Z.

Definition identity : Point := (0, 1).

Definition generator : Point :=
  (15112221349535400772501151409588531511454012693041857206046113283949847762202,
   46316835694926478169428394003475163141307993866256225615783033603165251855960).

Definition Add (a b : Point) : Point :=
  let '(x1, y1) := a in
  let '(x2, y2) := b in
  let t := fmul d (fmul (fmul x1 x2) (fmul y1 y2)) in
  (fmul (fadd (fmul x1 y2) (fmul x2 y1)) (finv (fadd 1 t)),
   fmul (fadd (fmul y1 y2) (fmul x1 x2)) (finv (fsub 1 t))).

Definition Negate (a : Point) : Point := (fneg (fst a), snd a).

Definition Subtract (a b : Point) : Point := Add a (Negate b).

Definition ScalarMult (s : Z) (q : Point) : Point :=
  match s with
  | Zpos n => Pos.iter_op Add n q
  | _ => identity
  end.

Definition Equal (a b : Point) : Z :=
  if (fst a =? fst b) && (snd a =? snd b) then 1 else 0.

Definition Bytes (a : Point) : list byte :=
  le_split 32 (snd a + 2 ^ 255 * (fst a mod 2)).

Definition BytesMontgomery (a : Point) : list byte :=
  le_split 32 (fmul (fadd 1 (snd a)) (finv (fsub 1 (snd a)))).

Definition SetBytes (v : Point) (x : list byte) : Point * option error :=
  if negb (Nat.eqb (length x) 32) then
    (v, Some (External "edwards25519: invalid point encoding length"))
  else
    let y := (le_combine x mod 2 ^ 255) mod p in
    let y2 := fmul y y in
    let u := fsub y2 1 in
    let vv := fadd (fmul y2 d) 1 in
    let '(xx, wasSquare) := SqrtRatio u vv in
    if negb wasSquare then
      (v, Some (External "edwards25519: invalid point encoding"))
    else
      let xxNeg := fneg xx in
      let xx := if Z.testbit (le_combine x) 255 then xxNeg else xx in
      ((xx, y), None).

#[export] Instance provider : ed.PointProvider := {|
  ed.Point := Point;
  ed.NewIdentityPoint := identity;
  ed.NewGeneratorPoint := generator;
  ed.Point_Add := Add;
  ed.Point_Subtract := Subtract;
  ed.Point_Negate := Negate;
  ed.ScalarMult := ScalarMult;
  ed.Point_Equal := Equal;
  ed.Point_Bytes := Bytes;
  ed.BytesMontgomery := BytesMontgomery;
  ed.SetBytes := SetBytes
|}.

End affine.

(** A second executable instance, in which a point has several
    representatives, as in the provider: projective coordinates [(X, Y, Z)]
    stand for the affine point [(X/Z, Y/Z)]. Decoding returns the
    representative with [Z = 1]; the group law returns another one. *)
Module projective.

Definition Point : Type := Z * Z * Z.

Definition normalize (a : Point) : affine.Point :=
  let '(x, y, z) := a in
  let zinv := affine.finv z in
  (affine.fmul x zinv, affine.fmul y zinv).

Definition scale (a : affine.Point) (z : Z) : Point :=
  (affine.fmul (fst a) z, affine.fmul (snd a) z, z).

Definition identity : Point := (0, 1, 1).

Definition generator : Point := scale affine.generator 1.

Definition Add (a b : Point) : Point :=
  scale (affine.Add (normalize a) (normalize b)) 2.

Definition Negate (a : Point) : Point :=
  scale (affine.Negate (normalize a)) 2.

Definition Subtract (a b : Point) : Point := Add a (Negate b).

Definition ScalarMult (s : Z) (q : Point) : Point :=
  scale (affine.ScalarMult s (normalize q)) 2.

(** Equality is tested by cross-multiplication, without any inversion. *)
Definition Equal (a b : Point) : Z :=
  let '(x1, y1, z1) := a in
  let '(x2, y2, z2) := b in
  if (affine.fmul x1 z2 =? affine.fmul x2 z1)
     && (affine.fmul y1 z2 =? affine.fmul y2 z1)
  then 1 else 0.

Definition Bytes (a : Point) : list byte := affine.Bytes (normalize a).

Definition BytesMontgomery (a : Point) : list byte :=
  affine.BytesMontgomery (normalize a).

Definition SetBytes (v : Point) (x : list byte) : Point * option error :=
  match affine.SetBytes (normalize v) x with
  | (_, Some err) => (v, Some err)
  | (q, None) => (scale q 1, None)
  end.

Definition provider : ed.PointProvider := {|
  ed.Point := Point;
  ed.NewIdentityPoint := identity;
  ed.NewGeneratorPoint := generator;
  ed.Point_Add := Add;
  ed.Point_Subtract := Subtract;
  ed.Point_Negate := Negate;
  ed.ScalarMult := ScalarMult;
  ed.Point_Equal := Equal;
  ed.Point_Bytes := Bytes;
  ed.BytesMontgomery := BytesMontgomery;
  ed.SetBytes := SetBytes
|}.

End projective.

(** ** Package [internal/edwards25519]: scalars and elements *)

Module edwards25519.

(** Modelled from the spec: the constant [canonicalEncodingLength] of this
    package, declared outside the files at hand; it is the fixed length of
    the canonical encodings of the group, 32 bytes, as in the [ristretto]
    package. *)
Definition canonicalEncodingLength : nat := 32.

(** [type Scalar struct { scalar ed.Scalar }] *)
Definition Scalar : Type := ed.Scalar.

Definition scMinusOne : list byte :=
  map byte.of_Z
    [236; 211; 245; 92; 26; 99; 18; 88; 214; 156; 247; 162; 222; 249; 222; 20;
     0; 0; 0; 0; 0; 0; 0; 0; 0; 0; 0; 0; 0; 0; 0; 16].

Definition orderBytes : list byte :=
  map byte.of_Z
    [237; 211; 245; 92; 26; 99; 18; 88; 214; 156; 247; 162; 222; 249; 222; 20;
     0; 0; 0; 0; 0; 0; 0; 0; 0; 0; 0; 0; 0; 0; 0; 16].

(** [assert]: the type assertion of [scalar] to this package's [Scalar]
    pointer fails on a nil interface and on the scalar of another backend;
    the result is a copy. *)
Definition assert (scalar : option internal.Scalar) : outcome Scalar :=
  match scalar with
  | Some (Edwards25519 sc) => Return (ed.Set_ sc)
  | _ => Panic ErrCastScalar
  end.

Definition set (s : Scalar) (scalar : ed.Scalar) : Scalar := scalar.

Definition Zero (s : Scalar) : Scalar := ed.NewScalar.

Definition decodeScalar (s : Scalar) (scalar : list byte)
  : Scalar * option error :=
  if Nat.eqb (length scalar) 0 then (s, Some ErrParamNilScalar)
  else if negb (Nat.eqb (length scalar) canonicalEncodingLength) then
    (s, Some ErrParamScalarLength)
  else
    match ed.SetCanonicalBytes s scalar with
    | (s', Some err) => (s', Some (Errorf "" err))
    | (s', None) => (s', None)
    end.

Definition Decode (s : Scalar) (in_ : list byte) : Scalar * option error :=
  decodeScalar s in_.

(** [init] decodes the encodings of 0 and 1 into [scZero] and [scOne]
    (and panics if that fails, see [init_returns]). *)
Definition scZero : Scalar :=
  fst (Decode ed.NewScalar (repeat Byte.x00 32)).
Definition scOne : Scalar :=
  fst (Decode ed.NewScalar (Byte.x01 :: repeat Byte.x00 31)).

Definition One (s : Scalar) : Scalar := set s scOne.

Definition MinusOne (s : Scalar) : Scalar := fst (decodeScalar s scMinusOne).

Definition IsZero (s : Scalar) : bool := ed.Equal s ed.NewScalar =? 1.

Definition Add (s : Scalar) (scalar : option internal.Scalar)
  : outcome Scalar :=
  match scalar with
  | None => Return s
  | Some _ => sc <- assert scalar ;; Return (ed.Add s sc)
  end.

Definition Subtract (s : Scalar) (scalar : option internal.Scalar)
  : outcome Scalar :=
  match scalar with
  | None => Return s
  | Some _ => sc <- assert scalar ;; Return (ed.Subtract s sc)
  end.

Definition multiply (s scalar : Scalar) : Scalar := ed.Multiply s scalar.

Definition Multiply (s : Scalar) (scalar : option internal.Scalar)
  : outcome Scalar :=
  match scalar with
  | None => Return (Zero s)
  | Some _ => sc <- assert scalar ;; Return (multiply s sc)
  end.

(** [getMSBit]: the loop [for i := 7; i >= 0; i--], with [n] the number of
    iterations left (so [i = n - 1]). *)
Fixpoint getMSBit_loop (n : nat) (in_ : byte) : nat :=
  match n with
  | O => 0%nat
  | S i =>
      let mask := byte.wrap (Z.shiftl 1 (Z.of_nat i)) in
      if negb (Z.land (u8 in_) mask =? 0) then i else getMSBit_loop i in_
  end.

Definition getMSBit (in_ : byte) : nat := getMSBit_loop 8 in_.

(** [getMSByte]: [for i, b := range in], from index [i] on. *)
Fixpoint getMSByte_loop (i : nat) (in_ : list byte) (msb : nat) : nat :=
  match in_ with
  | [] => msb
  | b :: rest =>
      getMSByte_loop (S i) rest (if negb (u8 b =? 0) then i else msb)
  end.

Definition getMSByte (in_ : list byte) : nat := getMSByte_loop 0 in_ 0.

Definition square (s : Scalar) : Scalar := ed.Multiply s s.

Definition copy (s : Scalar) : Scalar := ed.Set_ s.

(** One round of the ladder on bit [j] of the byte [b], on the two
    accumulators [(s1, s2)]. *)
Definition round (b : byte) (j : nat) (acc : Scalar * Scalar)
  : Scalar * Scalar :=
  let '(s1, s2) := acc in
  let bit := Z.land (u8 b) (byte.wrap (Z.shiftl 1 (byte.wrap (Z.of_nat j)))) in
  if bit =? 0 then
    let s2 := multiply s2 s1 in
    let s1 := square s1 in
    (s1, s2)
  else
    let s1 := multiply s1 s2 in
    let s2 := square s2 in
    (s1, s2).

(** [for j := n - 1; j >= 0; j--] over the bits of [b]. *)
Fixpoint rounds (n : nat) (b : byte) (acc : Scalar * Scalar)
  : Scalar * Scalar :=
  match n with
  | O => acc
  | S j => rounds j b (round b j acc)
  end.

(** [for i := n - 1; i >= 0; i--] over the bytes below the most
    significant one, each with [for j := 7; j >= 0; j--]. *)
Fixpoint lower_bytes (n : nat) (bytes : list byte) (acc : Scalar * Scalar)
  : Scalar * Scalar :=
  match n with
  | O => acc
  | S i => lower_bytes i bytes (rounds 8 (index bytes i) acc)
  end.

Definition Pow (s : Scalar) (scalar : option internal.Scalar)
  : outcome Scalar :=
  let s1 := copy s in
  let s2 := copy s in
  let s2 := square s2 in
  sc <- assert scalar ;;
  let bytes := ed.Bytes sc in
  let msbyte := getMSByte bytes in
  let msbit := getMSBit (index bytes msbyte) in
  let b := index bytes msbyte in
  let acc := rounds msbit b (s1, s2) in
  let '(s1, s2) := lower_bytes msbyte bytes acc in
  (* [scalar.IsZero()]: [scalar] is the asserted scalar of this backend *)
  let '(s1, s2) := if IsZero sc then (One s1, s2) else (s1, One s2) in
  Return (set s s1).

Definition Equal (s : Scalar) (scalar : option internal.Scalar)
  : outcome Z :=
  match scalar with
  | None => Return 0
  | Some _ => sc <- assert scalar ;; Return (ed.Equal s sc)
  end.

Definition Encode (s : Scalar) : list byte := ed.Bytes s.

(** The loop [for i--; i >= 0; i--] of [LessOrEqual], with [n] the value
    of [i] before the decrement. *)
Fixpoint LessOrEqual_loop (n : nat) (ienc jenc : list byte) (res : bool)
  : bool :=
  match n with
  | O => res
  | S i =>
      LessOrEqual_loop i ienc jenc
        (res || (u8 (index ienc i) >? u8 (index jenc i)))
  end.

Definition LessOrEqual (s : Scalar) (scalar : option internal.Scalar)
  : outcome Z :=
  sc <- assert scalar ;;
  let ienc := Encode s in
  let jenc := Encode sc in
  let i := length ienc in
  if negb (Nat.eqb i (length jenc)) then Panic ErrParamScalarLength
  else
    let res := LessOrEqual_loop i ienc jenc false in
    if res then Return 0 else Return 1.

Definition Set_ (s : Scalar) (scalar : option internal.Scalar)
  : outcome Scalar :=
  match scalar with
  | None => Return (Zero s)
  | Some _ => ec <- assert scalar ;; Return ec
  end.

Definition SetUInt64 (s : Scalar) (i : Naive.word64) : outcome Scalar :=
  let encoded := repeat Byte.x00 canonicalEncodingLength in
  let encoded := binary.LittleEndian_PutUint64 encoded i in
  match decodeScalar s encoded with
  | (_, Some err) =>
      Panic (Errorf "unexpected decoding of uint64 scalar: " err)
  | (s', None) => Return s'
  end.

Definition UInt64 (s : Scalar) : Naive.word64 * option error :=
  let b := ed.Bytes s in
  let overflows := fold_left byte_or (skipn 8 b) Byte.x00 in
  if negb (u8 overflows =? 0) then (word.of_Z 0, Some ErrUInt64TooBig)
  else (binary.LittleEndian_Uint64 (firstn 8 b), None).

Definition Copy (s : Scalar) : Scalar := ed.Set_ s.

Definition inputLength : nat := 64.

(** [Random]: the loop [for { ... }], run for at most [fuel] iterations on
    the entropy stream. [None]: the loop has not returned within [fuel]
    iterations or the stream ran dry; otherwise the scalar returned, with
    the entropy left, or the panic. *)
Fixpoint Random_loop (fuel : nat) (entropy : list byte) (s : Scalar)
  : option (outcome (Scalar * list byte)) :=
  match fuel with
  | O => None
  | S fuel =>
      match RandomBytes inputLength entropy with
      | None => None
      | Some (random, entropy) =>
          match ed.SetUniformBytes s random with
          | (_, Some err) => Some (Panic err)
          | (s, None) =>
              if negb (IsZero s) then Some (Return (s, entropy))
              else Random_loop fuel entropy s
          end
      end
  end.

Definition Random (fuel : nat) (entropy : list byte) (s : Scalar)
  : option (outcome (Scalar * list byte)) :=
  Random_loop fuel entropy s.

Definition Hex (s : Scalar) : string := hex.EncodeToString (Encode s).

Definition DecodeHex (s : Scalar) (h : string) : Scalar * option error :=
  match hex.DecodeString h with
  | (_, Some err) => (s, Some (Errorf "" err))
  | (b, None) => Decode s b
  end.

Section Elements.

Context {provider : ed.PointProvider}.

(** [type Element struct { element ed.Point }] *)
Definition Element : Type := ed.Point.

(** [checkElement]: a nil interface panics; the type assertion to this
    package's [Element] pointer holds for every element of the model,
    which has this backend only. *)
Definition checkElement (element : option Element) : outcome Element :=
  match element with
  | None => Panic ErrParamNilPoint
  | Some ec => Return ec
  end.

Definition Base (e : Element) : Element := ed.NewGeneratorPoint.

Definition Identity (e : Element) : Element := ed.NewIdentityPoint.

Definition Element_Add (e : Element) (element : option Element)
  : outcome Element :=
  ec <- checkElement element ;;
  Return (ed.Point_Add e ec).

Definition Double (e : Element) : Element := ed.Point_Add e e.

Definition Negate (e : Element) : Element := ed.Point_Negate e.

Definition Element_Subtract (e : Element) (element : option Element)
  : outcome Element :=
  ec <- checkElement element ;;
  Return (ed.Point_Subtract e ec).

Definition Element_Multiply (e : Element) (scalar : option internal.Scalar)
  : outcome Element :=
  match scalar with
  | None => Return (Identity e)
  | Some _ => sc <- assert scalar ;; Return (ed.ScalarMult sc e)
  end.

Definition Element_Equal (e : Element) (element : option Element)
  : outcome Z :=
  ec <- checkElement element ;;
  Return (ed.Point_Equal e ec).

Definition IsIdentity (e : Element) : bool :=
  ed.Point_Equal e ed.NewIdentityPoint =? 1.

Definition Element_set (e element : Element) : Element := element.

Definition Element_Set (e : Element) (element : option Element)
  : outcome Element :=
  match element with
  | None => Return (Identity e)
  | Some ec => Return (Element_set e ec)
  end.

Definition Element_Encode (e : Element) : list byte := ed.Point_Bytes e.

Definition XCoordinate (e : Element) : list byte := ed.BytesMontgomery e.

(** [decodeElement] returns either a point and a nil error ([inl]) or a
    nil point and an error ([inr]). *)
Definition decodeElement (element : list byte) : ed.Point + error :=
  if Nat.eqb (length element) 0 then inr ErrParamInvalidPointEncoding
  else
    let e := ed.NewIdentityPoint in
    match ed.SetBytes e element with
    | (_, Some err) => inr (Errorf "" err)
    | (e, None) => inl e
    end.

Definition Element_Decode (e : Element) (data : list byte)
  : Element * option error :=
  match decodeElement data with
  | inr err => (e, Some err)
  | inl element =>
      (* superfluous identity check *)
      if ed.Point_Equal element ed.NewIdentityPoint =? 1 then
        (e, Some (Errorf "invalid edwards25519 encoding: " ErrIdentity))
      else (element, None)
  end.

End Elements.

End edwards25519.

(** ** Package [internal/ristretto]: the group constants and the scalars *)

Module ristretto.

Definition Identifier : byte := Byte.x01.

Definition inputLength : nat := 64.

Definition H2C : string := "ristretto255_XMD:SHA-512_R255MAP_RO_".

Definition canonicalEncodingLength : nat := 32.

Definition scMinusOne : list byte :=
  map byte.of_Z
    [236; 211; 245; 92; 26; 99; 18; 88; 214; 156; 247; 162; 222; 249; 222; 20;
     0; 0; 0; 0; 0; 0; 0; 0; 0; 0; 0; 0; 0; 0; 0; 16].

Definition orderBytes : list byte :=
  map byte.of_Z
    [237; 211; 245; 92; 26; 99; 18; 88; 214; 156; 247; 162; 222; 249; 222; 20;
     0; 0; 0; 0; 0; 0; 0; 0; 0; 0; 0; 0; 0; 0; 0; 16].

Definition Ciphersuite : string := H2C.

Definition ScalarLength : nat := canonicalEncodingLength.

Definition ElementLength : nat := canonicalEncodingLength.

(** [slices.Clone(orderBytes)] *)
Definition Order : list byte := orderBytes.

(** [type Scalar struct { scalar ristretto255.Scalar }] *)
Definition Scalar : Type := ristretto255.Scalar.

Definition scZero : Scalar := ristretto255.NewScalar.

Definition assert (scalar : option internal.Scalar) : outcome Scalar :=
  match scalar with
  | Some (Ristretto255 sc) => Return sc
  | _ => Panic ErrCastScalar
  end.

Definition set (s : Scalar) (scalar : ristretto255.Scalar) : Scalar :=
  ristretto255.Add scZero scalar.

Definition Zero (s : Scalar) : Scalar := ristretto255.Zero s.

Definition decodeScalar (s : Scalar) (scalar : list byte)
  : Scalar * option error :=
  if Nat.eqb (length scalar) 0 then (s, Some ErrParamNilScalar)
  else if negb (Nat.eqb (length scalar) canonicalEncodingLength) then
    (s, Some ErrParamScalarLength)
  else
    match ristretto255.Decode s scalar with
    | (s', Some err) => (s', Some (Errorf "" err))
    | (s', None) => (s', None)
    end.

Definition Decode (s : Scalar) (in_ : list byte) : Scalar * option error :=
  decodeScalar s in_.

(** [init] decodes the encoding of 1 into [scOne]. *)
Definition scOne : Scalar :=
  fst (Decode ristretto255.NewScalar (Byte.x01 :: repeat Byte.x00 31)).

Definition One (s : Scalar) : Scalar := set s scOne.

Definition MinusOne (s : Scalar) : Scalar := fst (decodeScalar s scMinusOne).

Definition IsZero (s : Scalar) : bool := ristretto255.Equal s scZero =? 1.

Definition Add (s : Scalar) (scalar : option internal.Scalar)
  : outcome Scalar :=
  match scalar with
  | None => Return s
  | Some _ => sc <- assert scalar ;; Return (ristretto255.Add s sc)
  end.

Definition Subtract (s : Scalar) (scalar : option internal.Scalar)
  : outcome Scalar :=
  match scalar with
  | None => Return s
  | Some _ => sc <- assert scalar ;; Return (ristretto255.Subtract s sc)
  end.

Definition multiply (s scalar : Scalar) : Scalar :=
  ristretto255.Multiply s scalar.

Definition Multiply (s : Scalar) (scalar : option internal.Scalar)
  : outcome Scalar :=
  match scalar with
  | None => Return (Zero s)
  | Some _ => sc <- assert scalar ;; Return (multiply s sc)
  end.

Fixpoint getMSBit_loop (n : nat) (in_ : byte) : nat :=
  match n with
  | O => 0%nat
  | S i =>
      let mask := byte.wrap (Z.shiftl 1 (Z.of_nat i)) in
      if negb (Z.land (u8 in_) mask =? 0) then i else getMSBit_loop i in_
  end.

Definition getMSBit (in_ : byte) : nat := getMSBit_loop 8 in_.

Fixpoint getMSByte_loop (i : nat) (in_ : list byte) (msb : nat) : nat :=
  match in_ with
  | [] => msb
  | b :: rest =>
      getMSByte_loop (S i) rest (if negb (u8 b =? 0) then i else msb)
  end.

Definition getMSByte (in_ : list byte) : nat := getMSByte_loop 0 in_ 0.

Definition square (s : Scalar) : Scalar := ristretto255.Multiply s s.

Definition copy (s : Scalar) : Scalar :=
  ristretto255.Add ristretto255.NewScalar s.

Definition Encode (s : Scalar) : list byte := ristretto255.Encode s [].

Definition round (b : byte) (j : nat) (acc : Scalar * Scalar)
  : Scalar * Scalar :=
  let '(s1, s2) := acc in
  let bit := Z.land (u8 b) (byte.wrap (Z.shiftl 1 (byte.wrap (Z.of_nat j)))) in
  if bit =? 0 then
    let s2 := multiply s2 s1 in
    let s1 := square s1 in
    (s1, s2)
  else
    let s1 := multiply s1 s2 in
    let s2 := square s2 in
    (s1, s2).

Fixpoint rounds (n : nat) (b : byte) (acc : Scalar * Scalar)
  : Scalar * Scalar :=
  match n with
  | O => acc
  | S j => rounds j b (round b j acc)
  end.

Fixpoint lower_bytes (n : nat) (bytes : list byte) (acc : Scalar * Scalar)
  : Scalar * Scalar :=
  match n with
  | O => acc
  | S i => lower_bytes i bytes (rounds 8 (index bytes i) acc)
  end.

Definition Pow (s : Scalar) (scalar : option internal.Scalar)
  : outcome Scalar :=
  let s1 := copy s in
  let s2 := copy s in
  let s2 := square s2 in
  sc <- assert scalar ;;
  let bytes := Encode sc in
  let msbyte := getMSByte bytes in
  let msbit := getMSBit (index bytes msbyte) in
  let b := index bytes msbyte in
  let acc := rounds msbit b (s1, s2) in
  let '(s1, s2) := lower_bytes msbyte bytes acc in
  let '(s1, s2) := if IsZero sc then (One s1, s2) else (s1, One s2) in
  Return (set s s1).

Definition Equal (s : Scalar) (scalar : option internal.Scalar)
  : outcome Z :=
  match scalar with
  | None => Return 0
  | Some _ => sc <- assert scalar ;; Return (ristretto255.Equal s sc)
  end.

Fixpoint LessOrEqual_loop (n : nat) (ienc jenc : list byte) (res : bool)
  : bool :=
  match n with
  | O => res
  | S i =>
      LessOrEqual_loop i ienc jenc
        (res || (u8 (index ienc i) >? u8 (index jenc i)))
  end.

Definition LessOrEqual (s : Scalar) (scalar : option internal.Scalar)
  : outcome Z :=
  sc <- assert scalar ;;
  let ienc := Encode s in
  let jenc := Encode sc in
  let i := length ienc in
  if negb (Nat.eqb i (length jenc)) then Panic ErrParamScalarLength
  else
    let res := LessOrEqual_loop i ienc jenc false in
    if res then Return 0 else Return 1.

Definition Set_ (s : Scalar) (scalar : option internal.Scalar)
  : outcome Scalar :=
  match scalar with
  | None => Return (Zero s)
  | Some _ => ec <- assert scalar ;; Return ec
  end.

Definition SetUInt64 (s : Scalar) (i : Naive.word64) : outcome Scalar :=
  let encoded := repeat Byte.x00 canonicalEncodingLength in
  let encoded := binary.LittleEndian_PutUint64 encoded i in
  match decodeScalar s encoded with
  | (_, Some err) =>
      Panic (Errorf "unexpected decoding of uint64 scalar: " err)
  | (s', None) => Return s'
  end.

Definition UInt64 (s : Scalar) : Naive.word64 * option error :=
  let b := ristretto255.Encode s [] in
  let overflows := fold_left byte_or (skipn 8 b) Byte.x00 in
  if negb (u8 overflows =? 0) then (word.of_Z 0, Some ErrUInt64TooBig)
  else (binary.LittleEndian_Uint64 (firstn 8 b), None).

Definition Copy (s : Scalar) : Scalar := copy s.

Fixpoint Random_loop (fuel : nat) (entropy : list byte) (s : Scalar)
  : option (outcome (Scalar * list byte)) :=
  match fuel with
  | O => None
  | S fuel =>
      match RandomBytes inputLength entropy with
      | None => None
      | Some (random, entropy) =>
          match ristretto255.FromUniformBytes s random with
          | Panic err => Some (Panic err)
          | Return s =>
              if negb (IsZero s) then Some (Return (s, entropy))
              else Random_loop fuel entropy s
          end
      end
  end.

Definition Random (fuel : nat) (entropy : list byte) (s : Scalar)
  : option (outcome (Scalar * list byte)) :=
  Random_loop fuel entropy s.

Definition Hex (s : Scalar) : string := hex.EncodeToString (Encode s).

Definition DecodeHex (s : Scalar) (h : string) : Scalar * option error :=
  match hex.DecodeString h with
  | (_, Some err) => (s, Some (Errorf "" err))
  | (b, None) => Decode s b
  end.

End ristretto.

(** ** Package [internal/secp256k1]: the scalars over the provider *)

Module secp256k1.

(** Modelled from the spec: the constant [scalarLength] of this package,
    declared outside the files at hand; the canonical encoding of a scalar
    of secp256k1 has 32 bytes. *)
Definition scalarLength : nat := 32.

(** [type Scalar struct { scalar *secp256k1.Scalar }] *)
Definition Scalar : Type := secp256k1_provider.Scalar.

Definition newScalar : Scalar := secp256k1_provider.NewScalar.

Definition SetUInt64 (s : Scalar) (i : Naive.word64) : Scalar :=
  secp256k1_provider.SetUInt64 s i.

Definition UInt64 (s : Scalar) : Naive.word64 * option error :=
  let b := secp256k1_provider.Encode s in
  let overflows :=
    fold_left byte_or (firstn (scalarLength - 8) b) Byte.x00 in
  if negb (u8 overflows =? 0) then (word.of_Z 0, Some ErrUInt64TooBig)
  else (binary.BigEndian_Uint64 (skipn (scalarLength - 8) b), None).

Definition Encode (s : Scalar) : list byte := secp256k1_provider.Encode s.

(** The dynamic values a method of this package is given as an
    [internal.Scalar]: a scalar of this package, or a scalar of one of the
    two other backends. *)
Inductive operand : Type :=
| Own (sc : Scalar)
| Foreign (sc : internal.Scalar).

(** [assert]: the type assertion fails on a nil interface and on the scalar
    of another backend. *)
Definition assert (scalar : option operand) : outcome Scalar :=
  match scalar with
  | Some (Own sc) => Return sc
  | _ => Panic ErrCastScalar
  end.

Definition Zero (s : Scalar) : Scalar := secp256k1_provider.Zero s.

Definition One (s : Scalar) : Scalar := secp256k1_provider.One s.

Definition IsZero (s : Scalar) : bool := secp256k1_provider.IsZero s.

Definition Add (s : Scalar) (scalar : option operand) : outcome Scalar :=
  match scalar with
  | None => Return s
  | Some _ => sc <- assert scalar ;; Return (secp256k1_provider.Add s sc)
  end.

Definition Subtract (s : Scalar) (scalar : option operand)
  : outcome Scalar :=
  match scalar with
  | None => Return s
  | Some _ => sc <- assert scalar ;; Return (secp256k1_provider.Subtract s sc)
  end.

Definition Multiply (s : Scalar) (scalar : option operand)
  : outcome Scalar :=
  match scalar with
  | None => Return (Zero s)
  | Some _ => sc <- assert scalar ;; Return (secp256k1_provider.Multiply s sc)
  end.

Definition Equal (s : Scalar) (scalar : option operand) : outcome Z :=
  match scalar with
  | None => Return 0
  | Some _ => sc <- assert scalar ;; Return (secp256k1_provider.Equal s sc)
  end.

Definition LessOrEqual (s : Scalar) (scalar : option operand) : outcome Z :=
  sc <- assert scalar ;; Return (secp256k1_provider.LessOrEqual s sc).

Definition Set_ (s : Scalar) (scalar : option operand) : outcome Scalar :=
  match scalar with
  | None => Return (Zero s)
  | Some _ => sc <- assert scalar ;; Return (secp256k1_provider.Set_ s sc)
  end.

(** [scalar.IsZero()] and [scalar.Equal(x)] on an operand of [Pow] are the
    methods of the operand's own backend. [x] is a scalar of this package,
    which the [Equal] of another backend refuses in its own [assert]. *)
Definition operand_IsZero (scalar : operand) : bool :=
  match scalar with
  | Own sc => IsZero sc
  | Foreign (Ristretto255 sc) => ristretto.IsZero sc
  | Foreign (Edwards25519 sc) => edwards25519.IsZero sc
  end.

Definition operand_Equal (scalar : operand) (x : Scalar) : outcome Z :=
  match scalar with
  | Own sc => Equal sc (Some (Own x))
  | Foreign _ => Panic ErrCastScalar
  end.

(** [Pow]: the operand is tested for nil, for zero and for one before it is
    asserted to be a scalar of this package. *)
Definition Pow (s : Scalar) (scalar : option operand) : outcome Scalar :=
  match scalar with
  | None => Return (One s)
  | Some x =>
      if operand_IsZero x then Return (One s)
      else
        e <- operand_Equal x (One newScalar) ;;
        if e =? 1 then Return s
        else sc <- assert scalar ;; Return (secp256k1_provider.Pow s sc)
  end.

(** [Decode]: the provider does all the checks; its error "scalar too big"
    is replaced by the sentinel, any other is wrapped. *)
Definition Decode (s : Scalar) (input : list byte) : Scalar * option error :=
  match secp256k1_provider.Decode s input with
  | (s, Some err) =>
      if has_message err "scalar too big"
      then (s, Some ErrParamScalarInvalidEncoding)
      else (s, Some (Errorf "" err))
  | (s, None) => (s, None)
  end.

End secp256k1.

(** ** Package [internal/nist]: the encoding of scalars *)

(** Modelled from the spec: the scalars of the groups P-256, P-384 and
    P-521, whose package [internal/nist] is not among the files at hand. A
    scalar is an integer below the order of its group; its canonical
    encoding is the big-endian one on the scalar length of the group (32, 48
    and 66 bytes); [Decode] fails with the wrong-length error on an incorrect
    byte count and with the invalid-encoding error when the decoded magnitude
    is not below the order, and leaves the receiver unchanged then (spec,
    sections 3, 4.2 and 6). *)
Module nist.

Inductive Group : Type := P256 | P384 | P521.

Definition ScalarLength (g : Group) : nat :=
  match g with
  | P256 => 32
  | P384 => 48
  | P521 => 66
  end.

Definition Order (g : Group) : Z :=
  match g with
  | P256 =>
      0xffffffff00000000ffffffffffffffffbce6faada7179e84f3b9cac2fc632551
  | P384 =>
      0xffffffffffffffffffffffffffffffffffffffffffffffffc7634d81f4372ddf581a0db248b0a77aecec196accc52973
  | P521 =>
      0x1fffffffffffffffffffffffffffffffffffffffffffffffffffffffffffffffffa51868783bf2f966b7fcc0148f709a5d03bb5c9b8899c47aebb6fb71e91386409
  end.

Definition Scalar : Type := Z.

Definition Encode (g : Group) (s : Scalar) : list byte :=
  rev (le_split (ScalarLength g) s).

Definition Decode (g : Group) (s : Scalar) (input : list byte)
  : Scalar * option error :=
  if negb (Nat.eqb (length input) (ScalarLength g)) then
    (s, Some ErrParamScalarLength)
  else if Order g <=? le_combine (rev input) then
    (s, Some ErrParamScalarInvalidEncoding)
  else (le_combine (rev input), None).

End nist.

(** ** Method calls through the interface [internal.Scalar]

    A call [s.Scalar.M(args)] runs the method [M] of the backend package of
    the dynamic value of [s.Scalar]. *)

Module iScalar.

Definition lift (f g : Z -> Z) (s : internal.Scalar) : internal.Scalar :=
  match s with
  | Ristretto255 v => Ristretto255 (f v)
  | Edwards25519 v => Edwards25519 (g v)
  end.

Definition lift_outcome (f g : Z -> outcome Z) (s : internal.Scalar)
  : outcome internal.Scalar :=
  match s with
  | Ristretto255 v => r <- f v ;; Return (Ristretto255 r)
  | Edwards25519 v => r <- g v ;; Return (Edwards25519 r)
  end.

Definition lift_error (f g : Z -> Z * option error) (s : internal.Scalar)
  : internal.Scalar * option error :=
  match s with
  | Ristretto255 v => let '(r, err) := f v in (Ristretto255 r, err)
  | Edwards25519 v => let '(r, err) := g v in (Edwards25519 r, err)
  end.

Definition query {A : Type} (f g : Z -> A) (s : internal.Scalar) : A :=
  match s with
  | Ristretto255 v => f v
  | Edwards25519 v => g v
  end.

Definition Zero := lift ristretto.Zero edwards25519.Zero.
Definition One := lift ristretto.One edwards25519.One.
Definition MinusOne := lift ristretto.MinusOne edwards25519.MinusOne.
Definition Add s scalar :=
  lift_outcome (fun v => ristretto.Add v scalar)
               (fun v => edwards25519.Add v scalar) s.
Definition Subtract s scalar :=
  lift_outcome (fun v => ristretto.Subtract v scalar)
               (fun v => edwards25519.Subtract v scalar) s.
Definition Multiply s scalar :=
  lift_outcome (fun v => ristretto.Multiply v scalar)
               (fun v => edwards25519.Multiply v scalar) s.
Definition Pow s scalar :=
  lift_outcome (fun v => ristretto.Pow v scalar)
               (fun v => edwards25519.Pow v scalar) s.
Definition Equal s scalar :=
  query (fun v => ristretto.Equal v scalar)
        (fun v => edwards25519.Equal v scalar) s.
Definition LessOrEqual s scalar :=
  query (fun v => ristretto.LessOrEqual v scalar)
        (fun v => edwards25519.LessOrEqual v scalar) s.
Definition IsZero := query ristretto.IsZero edwards25519.IsZero.
Definition Set_ s scalar :=
  lift_outcome (fun v => ristretto.Set_ v scalar)
               (fun v => edwards25519.Set_ v scalar) s.
Definition SetUInt64 s i :=
  lift_outcome (fun v => ristretto.SetUInt64 v i)
               (fun v => edwards25519.SetUInt64 v i) s.
Definition UInt64 := query ristretto.UInt64 edwards25519.UInt64.
Definition Copy := lift ristretto.Copy edwards25519.Copy.
Definition Encode := query ristretto.Encode edwards25519.Encode.
Definition Decode s in_ :=
  lift_error (fun v => ristretto.Decode v in_)
             (fun v => edwards25519.Decode v in_) s.

Definition Random (fuel : nat) (entropy : list byte) (s : internal.Scalar)
  : option (outcome (internal.Scalar * list byte)) :=
  match s with
  | Ristretto255 v =>
      option_map (fun m => r <- m ;; Return (Ristretto255 (fst r), snd r))
                 (ristretto.Random fuel entropy v)
  | Edwards25519 v =>
      option_map (fun m => r <- m ;; Return (Edwards25519 (fst r), snd r))
                 (edwards25519.Random fuel entropy v)
  end.
Definition Hex := query ristretto.Hex edwards25519.Hex.
Definition DecodeHex s h :=
  lift_error (fun v => ristretto.DecodeHex v h)
             (fun v => edwards25519.DecodeHex v h) s.

End iScalar.

(** ** Package [ecc]: the public scalars and elements *)

Module ecc.

(** [type Scalar struct { internal.Scalar }] *)
Record Scalar : Type := newScalar { inner : internal.Scalar }.

Definition Scalar_Zero (s : Scalar) : Scalar :=
  newScalar (iScalar.Zero (inner s)).

Definition Scalar_One (s : Scalar) : Scalar :=
  newScalar (iScalar.One (inner s)).

Definition Scalar_MinusOne (s : Scalar) : Scalar :=
  newScalar (iScalar.MinusOne (inner s)).

Definition Scalar_Add (s : Scalar) (scalar : option Scalar)
  : outcome Scalar :=
  match scalar with
  | None => Return s
  | Some scalar =>
      r <- iScalar.Add (inner s) (Some (inner scalar)) ;;
      Return (newScalar r)
  end.

Definition Scalar_Subtract (s : Scalar) (scalar : option Scalar)
  : outcome Scalar :=
  match scalar with
  | None => Return s
  | Some scalar =>
      r <- iScalar.Subtract (inner s) (Some (inner scalar)) ;;
      Return (newScalar r)
  end.

Definition Scalar_Multiply (s : Scalar) (scalar : option Scalar)
  : outcome Scalar :=
  match scalar with
  | None => Return (Scalar_Zero s)
  | Some scalar =>
      r <- iScalar.Multiply (inner s) (Some (inner scalar)) ;;
      Return (newScalar r)
  end.

Definition Scalar_Pow (s : Scalar) (scalar : option Scalar)
  : outcome Scalar :=
  match scalar with
  | None => Return (Scalar_One s)
  | Some scalar =>
      r <- iScalar.Pow (inner s) (Some (inner scalar)) ;;
      Return (newScalar r)
  end.

Definition Scalar_Equal (s : Scalar) (scalar : option Scalar)
  : outcome bool :=
  match scalar with
  | None => Return false
  | Some scalar =>
      r <- iScalar.Equal (inner s) (Some (inner scalar)) ;;
      Return (r =? 1)
  end.

Definition Scalar_LessOrEqual (s : Scalar) (scalar : option Scalar)
  : outcome bool :=
  match scalar with
  | None => Return false
  | Some scalar =>
      r <- iScalar.LessOrEqual (inner s) (Some (inner scalar)) ;;
      Return (r =? 1)
  end.

Definition Scalar_IsZero (s : Scalar) : bool := iScalar.IsZero (inner s).

Definition Scalar_Set (s : Scalar) (scalar : option Scalar)
  : outcome Scalar :=
  match scalar with
  | None => Return (Scalar_Zero s)
  | Some scalar =>
      r <- iScalar.Set_ (inner s) (Some (inner scalar)) ;;
      Return (newScalar r)
  end.

Definition Scalar_SetUInt64 (s : Scalar) (i : Naive.word64)
  : outcome Scalar :=
  r <- iScalar.SetUInt64 (inner s) i ;;
  Return (newScalar r).

Definition Scalar_UInt64 (s : Scalar) : Naive.word64 * option error :=
  match iScalar.UInt64 (inner s) with
  | (_, Some err) => (word.of_Z 0, Some (Errorf "" err))
  | (i, None) => (i, None)
  end.

Definition Scalar_Copy (s : Scalar) : Scalar :=
  newScalar (iScalar.Copy (inner s)).

Definition Scalar_Encode (s : Scalar) : list byte :=
  iScalar.Encode (inner s).

Definition Scalar_Decode (s : Scalar) (data : list byte)
  : Scalar * option error :=
  match iScalar.Decode (inner s) data with
  | (r, Some err) => (newScalar r, Some (Errorf "scalar Decode: " err))
  | (r, None) => (newScalar r, None)
  end.

Definition Scalar_Random (fuel : nat) (entropy : list byte) (s : Scalar)
  : option (outcome (Scalar * list byte)) :=
  option_map (fun m => r <- m ;; Return (newScalar (fst r), snd r))
             (iScalar.Random fuel entropy (inner s)).

Definition Scalar_Hex (s : Scalar) : string := iScalar.Hex (inner s).

Definition Scalar_DecodeHex (s : Scalar) (h : string)
  : Scalar * option error :=
  match iScalar.DecodeHex (inner s) h with
  | (r, Some err) => (newScalar r, Some (Errorf "scalar DecodeHex: " err))
  | (r, None) => (newScalar r, None)
  end.

Definition Scalar_MarshalBinary (s : Scalar) : list byte * option error :=
  (iScalar.Encode (inner s), None).

Definition Scalar_UnmarshalBinary (s : Scalar) (data : list byte)
  : Scalar * option error :=
  match iScalar.Decode (inner s) data with
  | (r, Some err) =>
      (newScalar r, Some (Errorf "scalar UnmarshalBinary: " err))
  | (r, None) => (newScalar r, None)
  end.

Section Elements.

Context {provider : ed.PointProvider}.

(** [type Element struct { internal.Element }], with the elements of the
    [edwards25519] backend as dynamic values. *)
Record Element : Type := newPoint { point : edwards25519.Element }.

Definition Element_Base (e : Element) : Element :=
  newPoint (edwards25519.Base (point e)).

Definition Element_Identity (e : Element) : Element :=
  newPoint (edwards25519.Identity (point e)).

Definition Element_Add (e : Element) (element : option Element)
  : outcome Element :=
  match element with
  | None => Return e
  | Some element =>
      r <- edwards25519.Element_Add (point e) (Some (point element)) ;;
      Return (newPoint r)
  end.

Definition Element_Double (e : Element) : Element :=
  newPoint (edwards25519.Double (point e)).

Definition Element_Negate (e : Element) : Element :=
  newPoint (edwards25519.Negate (point e)).

Definition Element_Subtract (e : Element) (element : option Element)
  : outcome Element :=
  match element with
  | None => Return e
  | Some element =>
      r <- edwards25519.Element_Subtract (point e) (Some (point element)) ;;
      Return (newPoint r)
  end.

Definition Element_Multiply (e : Element) (scalar : option Scalar)
  : outcome Element :=
  match scalar with
  | None => Return (newPoint (edwards25519.Identity (point e)))
  | Some scalar =>
      r <- edwards25519.Element_Multiply (point e) (Some (inner scalar)) ;;
      Return (newPoint r)
  end.

Definition Element_Equal (e : Element) (element : option Element)
  : outcome bool :=
  match element with
  | None => Return false
  | Some element =>
      r <- edwards25519.Element_Equal (point e) (Some (point element)) ;;
      Return (r =? 1)
  end.

Definition Element_IsIdentity (e : Element) : bool :=
  edwards25519.IsIdentity (point e).

Definition Element_Set (e : Element) (element : option Element)
  : outcome Element :=
  match element with
  | None =>
      r <- edwards25519.Element_Set (point e) None ;;
      Return (newPoint r)
  | Some element =>
      r <- edwards25519.Element_Set (point e) (Some (point element)) ;;
      Return (newPoint r)
  end.

Definition Element_Encode (e : Element) : list byte :=
  edwards25519.Element_Encode (point e).

Definition Element_XCoordinate (e : Element) : list byte :=
  edwards25519.XCoordinate (point e).

Definition Element_Decode (e : Element) (data : list byte)
  : Element * option error :=
  match edwards25519.Element_Decode (point e) data with
  | (r, Some err) => (newPoint r, Some (Errorf "element Decode: " err))
  | (r, None) => (newPoint r, None)
  end.

End Elements.

End ecc.

(** ** Vocabulary of the statements *)

(** The integer held by a scalar, and its backend. *)
Definition value (s : ecc.Scalar) : Z :=
  match ecc.inner s with
  | Ristretto255 v => v
  | Edwards25519 v => v
  end.

Definition same_group (a b : ecc.Scalar) : bool :=
  match ecc.inner a, ecc.inner b with
  | Ristretto255 _, Ristretto255 _ => true
  | Edwards25519 _, Edwards25519 _ => true
  | _, _ => false
  end.

(** A scalar is a field element in [[0, order)]. *)
Definition canonical (s : ecc.Scalar) : Prop := 0 <= value s < ed.l.

(** The scalars of the two backends holding a given integer. *)
Definition ristretto_scalar (v : Z) : ecc.Scalar :=
  ecc.newScalar (Ristretto255 v).
Definition edwards_scalar (v : Z) : ecc.Scalar :=
  ecc.newScalar (Edwards25519 v).

(** All the bytes of a slice are zero. *)
Definition all_zero (b : list byte) : Prop := Forall (fun x => x = Byte.x00) b.

(** The error of the scalar providers on a magnitude that is not below the
    group order. *)
Definition invalid_scalar_encoding : error :=
  External "invalid scalar encoding".

(** The reference exponentiation: [s ** k] reduced modulo the group order. *)
Definition power (s k : Z) : Z := s ^ k mod ed.l.

(** The round trip of the provider at [e], whatever representative of the
    point it returns: it decodes the encoding of [e] to a point [q] that it
    holds equal to [e], that has the encoding of [e], and that it holds equal
    to the identity exactly when it does [e]. *)
Definition provider_decodes {provider : ed.PointProvider}
  (e : ecc.Element) (q : ed.Point) : Prop :=
  ed.SetBytes ed.NewIdentityPoint (ecc.Element_Encode e) = (q, None) /\
  ed.Point_Equal q (ecc.point e) = 1 /\
  ed.Point_Bytes q = ed.Point_Bytes (ecc.point e) /\
  ed.Point_Equal q ed.NewIdentityPoint
  = ed.Point_Equal (ecc.point e) ed.NewIdentityPoint.

(** The identity and the generator of the executable provider. *)
Definition affine_O : @ecc.Element affine.provider :=
  @ecc.newPoint affine.provider affine.identity.
Definition affine_B : @ecc.Element affine.provider :=
  @ecc.newPoint affine.provider affine.generator.

(** The identity of the projective provider, and its generator in a
    representative that decoding does not return. *)
Definition projective_O : @ecc.Element projective.provider :=
  @ecc.newPoint projective.provider projective.identity.
Definition projective_B : @ecc.Element projective.provider :=
  @ecc.newPoint projective.provider (projective.scale affine.generator 2).

(** The scalar a 64-byte sample of entropy is reduced to. *)
Definition uniform (sample : list byte) : Z := le_combine sample mod ed.l.

(** The scalar of the group of [s] that holds [v]. *)
Definition with_value (s : ecc.Scalar) (v : Z) : ecc.Scalar :=
  match ecc.inner s with
  | Ristretto255 _ => ristretto_scalar v
  | Edwards25519 _ => edwards_scalar v
  end.

(** [strings.ToLower] on ASCII text. *)
Definition lower (c : byte) : byte :=
  if (65 <=? u8 c) && (u8 c <=? 90) then byte.of_Z (u8 c + 32) else c.
Definition ToLower (h : string) : string :=
  string_of_list_byte (map lower (list_byte_of_string h)).

(** The operation returns a canonical scalar of the group of [s]. *)
Definition returns_canonical (s : ecc.Scalar) (m : outcome ecc.Scalar) : Prop :=
  exists r, m = Return r /\ canonical r /\ same_group r s = true.

(** ** Bytes and little-endian integers *)

Lemma l_pos : 0 < ed.l.
Proof. reflexivity. Qed.

Lemma l_lt_256 : ed.l < 2 ^ 256.
Proof. reflexivity. Qed.

Lemma le_combine_split_32 (v : Z) :
  0 <= v < ed.l -> le_combine (le_split 32 v) = v.
Proof.
  intros H. rewrite le_combine_split. apply Z.mod_small.
  pose proof l_lt_256. change (Z.of_nat 32 * 8) with 256. lia.
Qed.

Lemma u8_range (b : byte) : 0 <= u8 b < 256.
Proof. apply byte.unsigned_range. Qed.

Lemma u8_zero_iff (b : byte) : u8 b = 0 <-> b = Byte.x00.
Proof.
  split; intros H.
  - apply byte.unsigned_inj. exact H.
  - subst b. reflexivity.
Qed.

Lemma u8_byte_or (a b : byte) : u8 (byte_or a b) = Z.lor (u8 a) (u8 b).
Proof.
  unfold byte_or, u8. rewrite byte.unsigned_of_Z. unfold byte.wrap.
  rewrite <- (byte.wrap_unsigned a), <- (byte.wrap_unsigned b) at 2.
  unfold byte.wrap. rewrite <- !Z.land_ones by lia.
  rewrite <- Z.land_lor_distr_l.
  rewrite Z.land_ones by lia.
  rewrite <- (byte.wrap_unsigned a), <- (byte.wrap_unsigned b) at 1.
  unfold byte.wrap. rewrite <- !Z.land_ones by lia.
  rewrite <- Z.land_lor_distr_l, <- Z.land_assoc, Z.land_diag.
  reflexivity.
Qed.

(** The accumulation [overflows |= bx] ends at zero exactly when it starts
    at zero and meets zero bytes only. *)
Lemma fold_byte_or_zero (bs : list byte) (a : byte) :
  u8 (fold_left byte_or bs a) = 0 <-> a = Byte.x00 /\ all_zero bs.
Proof.
  revert a. induction bs as [|b bs IH]; intros a; simpl.
  - rewrite u8_zero_iff. unfold all_zero. intuition.
  - rewrite IH. rewrite <- (u8_zero_iff (byte_or a b)), u8_byte_or.
    rewrite Z.lor_eq_0_iff, !u8_zero_iff. unfold all_zero.
    split.
    + intros [[Ha Hb] Hbs]. split; [exact Ha|]. constructor; assumption.
    + intros [Ha Hbs]. inversion Hbs; subst. auto.
Qed.

Lemma land_low_high (a c : Z) : 0 <= a < 2 ^ 8 -> Z.land a (c * 2 ^ 8) = 0.
Proof.
  intros Ha. apply Z.bits_inj'. intros n Hn.
  rewrite Z.land_spec, Z.bits_0.
  destruct (Z.ltb_spec n 8) as [Hlt|Hge].
  - rewrite Z.mul_pow2_bits_low by lia. apply andb_false_r.
  - assert (Hbit : Z.testbit a n = false).
    { destruct (Z.eq_dec a 0) as [->|Hz]; [apply Z.bits_0|].
      apply Z.bits_above_log2; [lia|].
      apply Z.lt_le_trans with 8; [|lia].
      apply Z.log2_lt_pow2; lia. }
    rewrite Hbit. reflexivity.
Qed.

Lemma le_combine_cons (b : byte) (t : list byte) :
  le_combine (b :: t) = u8 b + 256 * le_combine t.
Proof.
  change (le_combine (b :: t))
    with (Z.lor (byte.unsigned b) (Z.shiftl (le_combine t) 8)).
  pose proof (byte.unsigned_range b) as Hb. unfold u8.
  rewrite Z.shiftl_mul_pow2 by lia.
  rewrite <- Z.lxor_lor, <- Z.add_nocarry_lxor by (apply land_low_high; exact Hb).
  change (2 ^ 8) with 256. ring.
Qed.

(** ** Nil operands *)

Lemma Scalar_Zero_is_zero (s : ecc.Scalar) :
  same_group (ecc.Scalar_Zero s) s = true /\
  value (ecc.Scalar_Zero s) = 0 /\
  ecc.Scalar_IsZero (ecc.Scalar_Zero s) = true.
Proof. destruct s as [[v|v]]; repeat split. Qed.

(** C9: [Add(nil)] and [Subtract(nil)] on a scalar return the receiver
    unchanged, [Multiply(nil)] on a scalar sets it to the zero of its group,
    and [Multiply(nil)] on an element sets it to the identity. *)
Theorem nil_operand_policy
  (provider : ed.PointProvider) (s : ecc.Scalar) (e : ecc.Element) :
  ecc.Scalar_Add s None = Return s /\
  ecc.Scalar_Subtract s None = Return s /\
  (exists z, ecc.Scalar_Multiply s None = Return z /\
             same_group z s = true /\ value z = 0 /\
             ecc.Scalar_IsZero z = true) /\
  ecc.Element_Multiply e None = Return (ecc.newPoint ed.NewIdentityPoint).
Proof.
  repeat split.
  exists (ecc.Scalar_Zero s). split; [reflexivity|].
  apply Scalar_Zero_is_zero.
Qed.

(** C10: [Set(nil)] on a scalar sets it to the zero of its group and
    [Set(nil)] on an element sets it to the identity; neither panics. *)
Theorem Set_nil_resets
  (provider : ed.PointProvider) (s : ecc.Scalar) (e : ecc.Element) :
  (exists z, ecc.Scalar_Set s None = Return z /\
             same_group z s = true /\ value z = 0 /\
             ecc.Scalar_IsZero z = true) /\
  ecc.Element_Set e None = Return (ecc.newPoint ed.NewIdentityPoint).
Proof.
  split; [|reflexivity].
  exists (ecc.Scalar_Zero s). split; [reflexivity|].
  apply Scalar_Zero_is_zero.
Qed.

(** C2, as stated, fails on the generator: the public [Add(nil)] and
    [Subtract(nil)] return the receiver and do not panic. *)
Lemma Element_Add_nil_does_not_panic :
  ecc.Element_Add affine_B None = Return affine_B /\
  ecc.Element_Subtract affine_B None = Return affine_B /\
  ecc.Element_Add affine_B None <> Panic ErrParamNilPoint /\
  ecc.Element_Subtract affine_B None <> Panic ErrParamNilPoint.
Proof. repeat split; discriminate. Qed.

(** C2, amended: on the public element [Add(nil)] and [Subtract(nil)] are
    no-ops that return the receiver; it is the backend element that panics
    with [ErrParamNilPoint] on a nil operand. *)
Theorem Element_nil_operand (provider : ed.PointProvider) (e : ecc.Element) :
  ecc.Element_Add e None = Return e /\
  ecc.Element_Subtract e None = Return e /\
  edwards25519.Element_Add (ecc.point e) None = Panic ErrParamNilPoint /\
  edwards25519.Element_Subtract (ecc.point e) None = Panic ErrParamNilPoint.
Proof. repeat split. Qed.

(** ** The order on scalars *)

(** What the loop of [LessOrEqual] computes: whether some byte of the
    receiver exceeds the byte of the comparand at the same index. *)
Lemma LessOrEqual_loop_exists (n : nat) (ienc jenc : list byte) (res : bool) :
  edwards25519.LessOrEqual_loop n ienc jenc res =
  res || existsb (fun i => u8 (index ienc i) >? u8 (index jenc i)) (seq 0 n).
Proof.
  revert res. induction n as [|n IH]; intros res.
  - simpl. now rewrite orb_false_r.
  - cbn [edwards25519.LessOrEqual_loop]. rewrite IH, seq_S, existsb_app.
    simpl. rewrite orb_false_r.
    destruct res, (existsb _ (seq 0 n)), (_ >? _); reflexivity.
Qed.

(** [LessOrEqual] answers 1 exactly when no byte of the receiver exceeds the
    byte of the comparand at the same index. *)
Lemma edwards_LessOrEqual_bytewise (a b : Z) :
  edwards25519.LessOrEqual a (Some (Edwards25519 b)) =
  Return
    (if existsb (fun i => u8 (index (edwards25519.Encode a) i)
                          >? u8 (index (edwards25519.Encode b) i))
                (seq 0 32)
     then 0 else 1).
Proof.
  unfold edwards25519.LessOrEqual. cbn [edwards25519.assert internal.bind].
  unfold ed.Set_, edwards25519.Encode, ed.Bytes.
  rewrite !length_le_split. cbn [Nat.eqb negb].
  rewrite LessOrEqual_loop_exists. cbn [orb].
  destruct (existsb _ (seq 0 32)); reflexivity.
Qed.

Lemma le_combine_bytewise (xs ys : list byte) :
  length xs = length ys ->
  (forall i, (i < length xs)%nat -> u8 (index xs i) <= u8 (index ys i)) ->
  le_combine xs <= le_combine ys.
Proof.
  revert ys. induction xs as [|x xs IH]; intros [|y ys] Hlen Hle;
    try discriminate Hlen.
  - reflexivity.
  - rewrite !le_combine_cons.
    assert (H0 : u8 x <= u8 y) by (apply (Hle 0%nat); cbn [length]; lia).
    assert (Hrest : le_combine xs <= le_combine ys).
    { apply IH; [now injection Hlen|].
      intros i Hi. apply (Hle (S i)). cbn [length]. lia. }
    lia.
Qed.

(** When [LessOrEqual] answers 1 the receiver is at most the comparand; the
    converse is what fails. *)
Lemma edwards_LessOrEqual_sound (a b : Z) :
  0 <= a < ed.l -> 0 <= b < ed.l ->
  edwards25519.LessOrEqual a (Some (Edwards25519 b)) = Return 1 -> a <= b.
Proof.
  intros Ha Hb. rewrite edwards_LessOrEqual_bytewise.
  destruct (existsb _ (seq 0 32)) eqn:E; [discriminate|]. intros _.
  rewrite <- (le_combine_split_32 a Ha), <- (le_combine_split_32 b Hb).
  apply le_combine_bytewise.
  - now rewrite !length_le_split.
  - intros i Hi. rewrite length_le_split in Hi.
    assert (Hin : In i (seq 0 32)) by (apply in_seq; lia).
    destruct (Z.gtb_spec (u8 (index (edwards25519.Encode a) i))
                         (u8 (index (edwards25519.Encode b) i))) as [Hgt|Hle];
      [|exact Hle].
    exfalso.
    assert (Hex : existsb
                    (fun i => u8 (index (edwards25519.Encode a) i)
                              >? u8 (index (edwards25519.Encode b) i))
                    (seq 0 32) = true).
    { apply existsb_exists. exists i. split; [exact Hin|].
      apply Z.gtb_gt. lia. }
    rewrite Hex in E. discriminate.
Qed.

Lemma LessOrEqual_nil (s : ecc.Scalar) :
  ecc.Scalar_LessOrEqual s None = Return false.
Proof. reflexivity. Qed.

(** C1 fails on 1 and 256: [LessOrEqual] answers false both ways, for the
    two little-endian backends, although [1 <= 256]. *)
Theorem LessOrEqual_1_256 :
  ecc.Scalar_LessOrEqual (edwards_scalar 1) (Some (edwards_scalar 256))
    = Return false /\
  ecc.Scalar_LessOrEqual (edwards_scalar 256) (Some (edwards_scalar 1))
    = Return false /\
  ecc.Scalar_LessOrEqual (ristretto_scalar 1) (Some (ristretto_scalar 256))
    = Return false /\
  ecc.Scalar_LessOrEqual (ristretto_scalar 256) (Some (ristretto_scalar 1))
    = Return false /\
  value (edwards_scalar 1) <= value (edwards_scalar 256).
Proof. repeat split; try (vm_compute; reflexivity). discriminate. Qed.

(** ** Decoding and encoding scalars *)

(** The decoder of the two little-endian backends, case by case. *)
Lemma edwards_decodeScalar_cases (s : Z) (data : list byte) :
  edwards25519.decodeScalar s data =
  if Nat.eqb (length data) 0 then (s, Some ErrParamNilScalar)
  else if negb (Nat.eqb (length data) 32) then (s, Some ErrParamScalarLength)
  else if ed.l <=? le_combine data then
    (s, Some (Errorf "" invalid_scalar_encoding))
  else (le_combine data, None).
Proof.
  unfold edwards25519.decodeScalar, ed.SetCanonicalBytes,
    edwards25519.canonicalEncodingLength.
  destruct (Nat.eqb (length data) 0); [reflexivity|].
  destruct (Nat.eqb (length data) 32); [|reflexivity].
  cbn [negb]. destruct (ed.l <=? le_combine data); reflexivity.
Qed.

Lemma ristretto_decodeScalar_edwards (s : Z) (data : list byte) :
  ristretto.decodeScalar s data = edwards25519.decodeScalar s data.
Proof. reflexivity. Qed.

(** What [Decode] does on the public scalar, through the two backends. *)
Lemma Scalar_Decode_cases (s : ecc.Scalar) (data : list byte) :
  ecc.Scalar_Decode s data =
  if Nat.eqb (length data) 0 then
    (s, Some (Errorf "scalar Decode: " ErrParamNilScalar))
  else if negb (Nat.eqb (length data) 32) then
    (s, Some (Errorf "scalar Decode: " ErrParamScalarLength))
  else if ed.l <=? le_combine data then
    (s, Some (Errorf "scalar Decode: " (Errorf "" invalid_scalar_encoding)))
  else
    (ecc.newScalar (iScalar.lift (fun _ => le_combine data)
                                 (fun _ => le_combine data) (ecc.inner s)),
     None).
Proof.
  destruct s as [[v|v]];
    unfold ecc.Scalar_Decode, iScalar.Decode, iScalar.lift_error;
    cbn [ecc.inner]; unfold ristretto.Decode, edwards25519.Decode;
    rewrite ?ristretto_decodeScalar_edwards, edwards_decodeScalar_cases;
    destruct (Nat.eqb (length data) 0); try reflexivity;
    destruct (Nat.eqb (length data) 32); try reflexivity;
    cbn [negb]; destruct (ed.l <=? le_combine data); reflexivity.
Qed.

(** C6, as stated, fails on the empty input: the error is the nil-scalar
    error, not the wrong-length error. *)
Lemma Scalar_Decode_empty_not_wrong_length :
  let err := Errorf "scalar Decode: " ErrParamNilScalar in
  length (@nil byte) <> edwards25519.canonicalEncodingLength /\
  ecc.Scalar_Decode (edwards_scalar 5) [] = (edwards_scalar 5, Some err) /\
  Is err ErrParamScalarLength = false /\
  Is err ErrParamNilScalar = true.
Proof. cbv zeta. repeat split. discriminate. Qed.

(** The wrapper of secp256k1 over the outcomes of its provider. *)
Lemma secp256k1_Decode_cases (k : secp256k1.Scalar) (data : list byte) :
  secp256k1.Decode k data =
  if negb (Nat.eqb (length data) 32) then
    (k, Some (Errorf "" (External "invalid scalar length")))
  else if secp256k1_provider.order <=? le_combine (rev data) then
    (k, Some ErrParamScalarInvalidEncoding)
  else (le_combine (rev data), None).
Proof.
  unfold secp256k1.Decode, secp256k1_provider.Decode.
  destruct (negb (Nat.eqb (length data) 32)); [reflexivity|].
  destruct (secp256k1_provider.order <=? le_combine (rev data)); reflexivity.
Qed.

(** C6, amended: on the edwards25519 and ristretto backends [Decode] fails
    with the nil-scalar error on the empty input, with the wrong-length
    error on every non-empty input that is not 32 bytes long, and with the
    provider's invalid-encoding error on every 32-byte input whose magnitude
    is at least the group order. The secp256k1 backend checks no length
    itself: a non-empty input that is not 32 bytes long fails with the
    provider's error, wrapped, which is not the wrong-length sentinel, and a
    32-byte input whose big-endian magnitude is at least the order fails
    with the invalid-encoding sentinel. Whenever [Decode] fails the receiver
    is unchanged. *)
Theorem Scalar_Decode_errors
  (s : ecc.Scalar) (k : secp256k1.Scalar) (data : list byte) :
  (length data = 0%nat ->
   ecc.Scalar_Decode s data
   = (s, Some (Errorf "scalar Decode: " ErrParamNilScalar))) /\
  (length data <> 0%nat -> length data <> 32%nat ->
   ecc.Scalar_Decode s data
   = (s, Some (Errorf "scalar Decode: " ErrParamScalarLength))) /\
  (length data = 32%nat -> ed.l <= le_combine data ->
   exists err, ecc.Scalar_Decode s data = (s, Some err) /\
               Is err invalid_scalar_encoding = true) /\
  (forall s' err, ecc.Scalar_Decode s data = (s', Some err) -> s' = s) /\
  (length data <> 0%nat -> length data <> secp256k1.scalarLength ->
   let err := Errorf "" (External "invalid scalar length") in
   secp256k1.Decode k data = (k, Some err) /\
   Is err ErrParamScalarLength = false) /\
  (length data = secp256k1.scalarLength ->
   secp256k1_provider.order <= le_combine (rev data) ->
   secp256k1.Decode k data = (k, Some ErrParamScalarInvalidEncoding)) /\
  (forall k' err, secp256k1.Decode k data = (k', Some err) -> k' = k).
Proof.
  assert (Hle :
    (length data = 0%nat ->
     ecc.Scalar_Decode s data
     = (s, Some (Errorf "scalar Decode: " ErrParamNilScalar))) /\
    (length data <> 0%nat -> length data <> 32%nat ->
     ecc.Scalar_Decode s data
     = (s, Some (Errorf "scalar Decode: " ErrParamScalarLength))) /\
    (length data = 32%nat -> ed.l <= le_combine data ->
     exists err, ecc.Scalar_Decode s data = (s, Some err) /\
                 Is err invalid_scalar_encoding = true) /\
    (forall s' err, ecc.Scalar_Decode s data = (s', Some err) -> s' = s)).
  { rewrite Scalar_Decode_cases.
    destruct (Nat.eqb_spec (length data) 0) as [H0|H0];
      [|destruct (Nat.eqb_spec (length data) 32) as [H32|H32]; cbn [negb];
        [destruct (Z.leb_spec ed.l (le_combine data)) as [Hl|Hl]|]].
    all: repeat split; intros; try congruence; try lia.
    eexists. split; reflexivity. }
  destruct Hle as [H1 [H2 [H3 H4]]].
  split; [exact H1|]. split; [exact H2|]. split; [exact H3|].
  split; [exact H4|].
  rewrite secp256k1_Decode_cases. unfold secp256k1.scalarLength.
  destruct (Nat.eqb_spec (length data) 32) as [H32|H32]; cbn [negb].
  - destruct (Z.leb_spec secp256k1_provider.order (le_combine (rev data)))
      as [Hl|Hl].
    + split; [intros _ E; contradiction|].
      split; [reflexivity|]. intros k' err H. now injection H as <- _.
    + split; [intros _ E; contradiction|].
      split; [intros _ E; lia|]. intros k' err H. discriminate H.
  - split; [intros _ _; split; reflexivity|].
    split; [intros E; contradiction|].
    intros k' err H. now injection H as <- _.
Qed.

Lemma Scalar_Decode_errors_witness :
  ecc.Scalar_Decode (ristretto_scalar 5) [Byte.x00; Byte.x01]
  = (ristretto_scalar 5, Some (Errorf "scalar Decode: " ErrParamScalarLength)).
Proof.
  apply (proj1 (proj2 (Scalar_Decode_errors (ristretto_scalar 5) 0
                         [Byte.x00; Byte.x01]))); discriminate.
Defined.

Lemma be_decode_encode (n : nat) (k : Z) :
  0 <= k < 2 ^ (Z.of_nat n * 8) ->
  length (rev (le_split n k)) = n /\
  le_combine (rev (rev (le_split n k))) = k.
Proof.
  intros H. split.
  - rewrite length_rev. apply length_le_split.
  - rewrite rev_involutive, le_combine_split. apply Z.mod_small. exact H.
Qed.

Lemma nist_Order_bound (g : nist.Group) :
  nist.Order g <= 2 ^ (Z.of_nat (nist.ScalarLength g) * 8).
Proof. destruct g; vm_compute; discriminate. Qed.

(** C7: in every group, decoding the encoding of a scalar gives the scalar
    back, and the encoding has the scalar length of the group: 32
    little-endian bytes on edwards25519 and ristretto, 32 big-endian bytes on
    secp256k1, and 32, 48 or 66 big-endian bytes on the NIST groups. *)
Theorem Scalar_roundtrip
  (recv s : ecc.Scalar) (k' k : secp256k1.Scalar)
  (g : nist.Group) (n' n : nist.Scalar) :
  canonical s -> same_group recv s = true ->
  0 <= k < secp256k1_provider.order ->
  0 <= n < nist.Order g ->
  (ecc.Scalar_Decode recv (ecc.Scalar_Encode s) = (s, None) /\
   length (ecc.Scalar_Encode s) = ristretto.ScalarLength /\
   length (ecc.Scalar_Encode s) = edwards25519.canonicalEncodingLength) /\
  (secp256k1.Decode k' (secp256k1.Encode k) = (k, None) /\
   length (secp256k1.Encode k) = secp256k1.scalarLength) /\
  (nist.Decode g n' (nist.Encode g n) = (n, None) /\
   length (nist.Encode g n) = nist.ScalarLength g).
Proof.
  intros Hs Hg Hk Hn.
  assert (Hlen : length (ecc.Scalar_Encode s) = 32%nat).
  { destruct s as [[v|v]]; apply length_le_split. }
  assert (Hval : le_combine (ecc.Scalar_Encode s) = value s).
  { destruct s as [[v|v]]; apply le_combine_split_32; exact Hs. }
  split; [|split].
  - split; [|split; exact Hlen].
    rewrite Scalar_Decode_cases, Hlen, Hval. cbn [Nat.eqb negb].
    destruct (Z.leb_spec ed.l (value s)) as [Hl|Hl];
      [unfold canonical in Hs; lia|].
    destruct recv as [[r|r]], s as [[v|v]]; try discriminate; reflexivity.
  - assert (Ho : secp256k1_provider.order < 2 ^ (Z.of_nat 32 * 8))
      by reflexivity.
    destruct (be_decode_encode 32 k ltac:(lia)) as [Hl Hv].
    unfold secp256k1.Encode, secp256k1_provider.Encode.
    split; [|exact Hl].
    rewrite secp256k1_Decode_cases, Hl, Hv. cbn [Nat.eqb negb].
    destruct (Z.leb_spec secp256k1_provider.order k) as [Hb|Hb];
      [lia|reflexivity].
  - pose proof (nist_Order_bound g) as Ho.
    destruct (be_decode_encode (nist.ScalarLength g) n ltac:(lia))
      as [Hl Hv].
    unfold nist.Encode, nist.Decode. split; [|exact Hl].
    rewrite Hl, Hv, Nat.eqb_refl. cbn [negb].
    destruct (Z.leb_spec (nist.Order g) n) as [Hb|Hb]; [lia|reflexivity].
Qed.

Lemma Scalar_roundtrip_witness :
  (ecc.Scalar_Decode (edwards_scalar 0)
     (ecc.Scalar_Encode (edwards_scalar 78125))
   = (edwards_scalar 78125, None) /\
   length (ecc.Scalar_Encode (edwards_scalar 78125)) = ristretto.ScalarLength /\
   length (ecc.Scalar_Encode (edwards_scalar 78125))
   = edwards25519.canonicalEncodingLength) /\
  (secp256k1.Decode 0 (secp256k1.Encode 78125) = (78125, None) /\
   length (secp256k1.Encode 78125) = secp256k1.scalarLength) /\
  (nist.Decode nist.P521 0 (nist.Encode nist.P521 78125) = (78125, None) /\
   length (nist.Encode nist.P521 78125) = nist.ScalarLength nist.P521).
Proof.
  apply (Scalar_roundtrip (edwards_scalar 0) (edwards_scalar 78125)
           0 78125 nist.P521 0 78125).
  - split; [discriminate | reflexivity].
  - reflexivity.
  - split; [discriminate | reflexivity].
  - split; [discriminate | reflexivity].
Defined.

(** ** Coercions between scalars and 64-bit integers *)

Lemma word64_range (i : Naive.word64) : 0 <= word.unsigned i < 2 ^ 64.
Proof. apply word.unsigned_range. Qed.

Lemma word64_of_unsigned (i : Naive.word64) : word.of_Z (word.unsigned i) = i.
Proof. apply word.of_Z_unsigned. Qed.

Lemma le_combine_split_8 (v : Z) :
  0 <= v < 2 ^ 64 -> le_combine (le_split 8 v) = v.
Proof.
  intros H. rewrite le_combine_split. apply Z.mod_small. exact H.
Qed.

(** The 32-byte encoding of a 64-bit value is its 8-byte encoding followed
    by 24 zero bytes. *)
Lemma le_split_32_of_64 (v : Z) :
  0 <= v < 2 ^ 64 -> le_split 32 v = le_split 8 v ++ repeat Byte.x00 24.
Proof.
  intros H. apply le_combine_inj.
  - rewrite length_app, !length_le_split, repeat_length. reflexivity.
  - rewrite le_combine_app_0, le_combine_split_8 by exact H.
    rewrite le_combine_split. apply Z.mod_small.
    change (Z.of_nat 32 * 8) with 256.
    assert (2 ^ 64 < 2 ^ 256) by reflexivity. lia.
Qed.

Lemma firstn_length_app {A : Type} (l1 l2 : list A) (n : nat) :
  length l1 = n -> firstn n (l1 ++ l2) = l1.
Proof.
  intros <-. induction l1 as [|a l1 IH]; simpl.
  - now destruct l2.
  - now rewrite IH.
Qed.

Lemma skipn_length_app {A : Type} (l1 l2 : list A) (n : nat) :
  length l1 = n -> skipn n (l1 ++ l2) = l2.
Proof. intros <-. induction l1 as [|a l1 IH]; simpl; auto. Qed.

Lemma all_zero_repeat (n : nat) : all_zero (repeat Byte.x00 n).
Proof. apply Forall_forall. intros x Hx. now apply repeat_spec in Hx. Qed.

Lemma Scalar_UInt64_succeeds_iff (s : ecc.Scalar) :
  snd (ecc.Scalar_UInt64 s) = None
  <-> all_zero (skipn 8 (ecc.Scalar_Encode s)).
Proof.
  destruct s as [[v|v]];
    unfold ecc.Scalar_UInt64, ecc.Scalar_Encode, iScalar.UInt64,
      iScalar.Encode, iScalar.query; cbn [ecc.inner];
    unfold ristretto.UInt64, edwards25519.UInt64, ristretto.Encode,
      edwards25519.Encode.
  all: match goal with
       | |- context [fold_left byte_or (skipn 8 ?b) Byte.x00] =>
           destruct (Z.eqb_spec (u8 (fold_left byte_or (skipn 8 b) Byte.x00)) 0)
             as [H|H]; cbn [negb snd];
           rewrite fold_byte_or_zero in H
       end.
  all: split; intros; try tauto; try discriminate.
Qed.

Lemma Scalar_UInt64_error (s : ecc.Scalar) :
  snd (ecc.Scalar_UInt64 s) = None \/
  ecc.Scalar_UInt64 s = (word.of_Z 0, Some (Errorf "" ErrUInt64TooBig)).
Proof.
  destruct s as [[v|v]];
    unfold ecc.Scalar_UInt64, iScalar.UInt64, iScalar.query; cbn [ecc.inner];
    unfold ristretto.UInt64, edwards25519.UInt64.
  all: match goal with
       | |- context [negb ?c] => destruct c; cbn [negb snd]; auto
       end.
Qed.

Lemma secp256k1_UInt64_succeeds_iff (k : secp256k1.Scalar) :
  snd (secp256k1.UInt64 k) = None
  <-> all_zero (firstn 24 (secp256k1.Encode k)).
Proof.
  unfold secp256k1.UInt64, secp256k1.Encode.
  change (secp256k1.scalarLength - 8)%nat with 24%nat.
  destruct (Z.eqb_spec
              (u8 (fold_left byte_or
                     (firstn 24 (secp256k1_provider.Encode k)) Byte.x00)) 0)
    as [H|H]; cbn [negb snd]; rewrite fold_byte_or_zero in H.
  all: split; intros; try tauto; try discriminate.
Qed.

Lemma secp256k1_UInt64_error (k : secp256k1.Scalar) :
  snd (secp256k1.UInt64 k) = None \/
  secp256k1.UInt64 k = (word.of_Z 0, Some ErrUInt64TooBig).
Proof.
  unfold secp256k1.UInt64.
  match goal with
  | |- context [negb ?c] => destruct c; cbn [negb snd]; auto
  end.
Qed.

(** [SetUInt64] followed by [UInt64] on the little-endian backends. *)
Lemma le_SetUInt64_decodes (s : Z) (i : Naive.word64) :
  edwards25519.decodeScalar s
    (binary.LittleEndian_PutUint64 (repeat Byte.x00 32) i)
  = (word.unsigned i, None).
Proof.
  pose proof (word64_range i) as Hi.
  rewrite edwards_decodeScalar_cases.
  unfold binary.LittleEndian_PutUint64.
  change (skipn 8 (repeat Byte.x00 32)) with (repeat Byte.x00 24).
  rewrite length_app, length_le_split, repeat_length.
  cbn [Nat.add Nat.eqb negb].
  rewrite le_combine_app_0, le_combine_split_8 by exact Hi.
  destruct (Z.leb_spec ed.l (word.unsigned i)) as [Hl|Hl]; [|reflexivity].
  assert (2 ^ 64 < ed.l) by reflexivity. lia.
Qed.

Lemma le_UInt64_of_64 (i : Naive.word64) :
  edwards25519.UInt64 (word.unsigned i) = (i, None).
Proof.
  pose proof (word64_range i) as Hi.
  unfold edwards25519.UInt64, ed.Bytes, binary.LittleEndian_Uint64.
  rewrite le_split_32_of_64 by exact Hi.
  rewrite skipn_length_app, firstn_length_app by apply length_le_split.
  assert (Hz : u8 (fold_left byte_or (repeat Byte.x00 24) Byte.x00) = 0).
  { apply fold_byte_or_zero. split; [reflexivity|apply all_zero_repeat]. }
  rewrite Hz. cbn [Z.eqb negb].
  rewrite firstn_all2 by (rewrite length_le_split; lia).
  rewrite le_combine_split_8 by exact Hi.
  rewrite word64_of_unsigned. reflexivity.
Qed.

Lemma ristretto_UInt64_edwards (s : Z) :
  ristretto.UInt64 s = edwards25519.UInt64 s.
Proof.
  unfold ristretto.UInt64, edwards25519.UInt64, ristretto255.Encode, ed.Bytes.
  cbn [app]. reflexivity.
Qed.

Lemma Scalar_SetUInt64_UInt64 (s : ecc.Scalar) (i : Naive.word64) :
  exists s', ecc.Scalar_SetUInt64 s i = Return s' /\
             same_group s' s = true /\
             value s' = word.unsigned i /\
             ecc.Scalar_UInt64 s' = (i, None).
Proof.
  destruct s as [[v|v]].
  - exists (ristretto_scalar (word.unsigned i)). split.
    + unfold ecc.Scalar_SetUInt64, iScalar.SetUInt64, iScalar.lift_outcome.
      cbn [ecc.inner]. unfold ristretto.SetUInt64.
      change (repeat Byte.x00 ristretto.canonicalEncodingLength)
        with (repeat Byte.x00 32).
      rewrite ristretto_decodeScalar_edwards, le_SetUInt64_decodes.
      reflexivity.
    + split; [reflexivity|]. split; [reflexivity|].
      unfold ecc.Scalar_UInt64, iScalar.UInt64, iScalar.query.
      cbn [ecc.inner ristretto_scalar].
      rewrite ristretto_UInt64_edwards, le_UInt64_of_64. reflexivity.
  - exists (edwards_scalar (word.unsigned i)). split.
    + unfold ecc.Scalar_SetUInt64, iScalar.SetUInt64, iScalar.lift_outcome.
      cbn [ecc.inner]. unfold edwards25519.SetUInt64.
      change (repeat Byte.x00 edwards25519.canonicalEncodingLength)
        with (repeat Byte.x00 32).
      rewrite le_SetUInt64_decodes. reflexivity.
    + split; [reflexivity|]. split; [reflexivity|].
      unfold ecc.Scalar_UInt64, iScalar.UInt64, iScalar.query.
      cbn [ecc.inner edwards_scalar].
      rewrite le_UInt64_of_64. reflexivity.
Qed.

Lemma secp256k1_SetUInt64_UInt64 (k : secp256k1.Scalar) (i : Naive.word64) :
  secp256k1.UInt64 (secp256k1.SetUInt64 k i) = (i, None).
Proof.
  pose proof (word64_range i) as Hi.
  unfold secp256k1.UInt64, secp256k1.SetUInt64, secp256k1_provider.SetUInt64,
    secp256k1_provider.Encode, binary.BigEndian_Uint64.
  change (secp256k1.scalarLength - 8)%nat with 24%nat.
  assert (Ho : 2 ^ 64 < secp256k1_provider.order) by reflexivity.
  rewrite Z.mod_small by lia.
  rewrite le_split_32_of_64 by exact Hi.
  rewrite rev_app_distr, rev_repeat.
  rewrite firstn_length_app, skipn_length_app by apply repeat_length.
  assert (Hz : u8 (fold_left byte_or (repeat Byte.x00 24) Byte.x00) = 0).
  { apply fold_byte_or_zero. split; [reflexivity|apply all_zero_repeat]. }
  rewrite Hz. cbn [Z.eqb negb].
  rewrite firstn_all2 by (rewrite length_rev, length_le_split; lia).
  rewrite rev_involutive, le_combine_split_8 by exact Hi.
  rewrite word64_of_unsigned. reflexivity.
Qed.

(** C8: [UInt64] succeeds exactly when the bytes of the encoding above the
    low eight are zero (the last 24 of the 32 little-endian bytes, the first
    24 of the 32 big-endian bytes) and fails otherwise with
    [ErrUInt64TooBig]; [SetUInt64] always returns, and [UInt64] then gives
    back the 64-bit value. *)
Theorem UInt64_coercion
  (s : ecc.Scalar) (k : secp256k1.Scalar) (i : Naive.word64) :
  (snd (ecc.Scalar_UInt64 s) = None
   <-> all_zero (skipn 8 (ecc.Scalar_Encode s))) /\
  (snd (ecc.Scalar_UInt64 s) = None \/
   ecc.Scalar_UInt64 s = (word.of_Z 0, Some (Errorf "" ErrUInt64TooBig))) /\
  (snd (secp256k1.UInt64 k) = None
   <-> all_zero (firstn 24 (secp256k1.Encode k))) /\
  (snd (secp256k1.UInt64 k) = None \/
   secp256k1.UInt64 k = (word.of_Z 0, Some ErrUInt64TooBig)) /\
  (exists s', ecc.Scalar_SetUInt64 s i = Return s' /\
              same_group s' s = true /\
              value s' = word.unsigned i /\
              ecc.Scalar_UInt64 s' = (i, None)) /\
  secp256k1.UInt64 (secp256k1.SetUInt64 k i) = (i, None).
Proof.
  split; [apply Scalar_UInt64_succeeds_iff|].
  split; [apply Scalar_UInt64_error|].
  split; [apply secp256k1_UInt64_succeeds_iff|].
  split; [apply secp256k1_UInt64_error|].
  split; [apply Scalar_SetUInt64_UInt64|].
  apply secp256k1_SetUInt64_UInt64.
Qed.

(** ** Exponentiation of scalars *)

Lemma power_mul (s a b : Z) :
  0 <= a -> 0 <= b -> (power s a * power s b) mod ed.l = power s (a + b).
Proof.
  intros Ha Hb. unfold power.
  rewrite <- Z.mul_mod by (pose proof l_pos; lia).
  now rewrite Z.pow_add_r.
Qed.

Lemma power_range (s k : Z) : 0 <= power s k < ed.l.
Proof. apply Z.mod_pos_bound, l_pos. Qed.

Lemma power_1 (s : Z) : 0 <= s < ed.l -> power s 1 = s.
Proof. intros H. unfold power. rewrite Z.pow_1_r. now apply Z.mod_small. Qed.

(** Testing a bit with a one-bit mask. *)
Lemma land_pow2 (x j : Z) :
  0 <= j -> (Z.land x (2 ^ j) =? 0) = negb (Z.testbit x j).
Proof.
  intros Hj.
  assert (H : Z.land x (2 ^ j) = if Z.testbit x j then 2 ^ j else 0).
  { apply Z.bits_inj'. intros n Hn.
    rewrite Z.land_spec, Z.pow2_bits_eqb by lia.
    destruct (Z.eqb_spec j n) as [->|Hne].
    - rewrite andb_true_r. destruct (Z.testbit x n).
      + now rewrite Z.pow2_bits_true.
      + now rewrite Z.bits_0.
    - rewrite andb_false_r. destruct (Z.testbit x j).
      + now rewrite Z.pow2_bits_false.
      + now rewrite Z.bits_0. }
  rewrite H. destruct (Z.testbit x j); [|reflexivity].
  apply Z.eqb_neq. apply Z.pow_nonzero; lia.
Qed.

Lemma mask_of_bit (j : nat) :
  (j < 8)%nat ->
  byte.wrap (Z.shiftl 1 (byte.wrap (Z.of_nat j))) = 2 ^ Z.of_nat j.
Proof. do 8 (destruct j as [|j]; [reflexivity|]). lia. Qed.

Lemma mod_pow2_succ (x n : Z) :
  0 <= n -> x mod 2 ^ (n + 1) = x mod 2 ^ n + 2 ^ n * Z.b2z (Z.testbit x n).
Proof.
  intros Hn. rewrite Z.testbit_spec' by exact Hn.
  rewrite Z.pow_add_r, Z.pow_1_r by lia.
  apply Z.rem_mul_r; [apply Z.pow_nonzero; lia | lia].
Qed.

(** One round doubles the exponent of the first accumulator and adds the
    bit; the second accumulator stays one power ahead. *)
Lemma round_power (s k : Z) (b : byte) (j : nat) :
  (j < 8)%nat -> 0 <= k ->
  edwards25519.round b j (power s k, power s (k + 1)) =
  let k' := 2 * k + Z.b2z (Z.testbit (u8 b) (Z.of_nat j)) in
  (power s k', power s (k' + 1)).
Proof.
  intros Hj Hk. unfold edwards25519.round.
  rewrite mask_of_bit, land_pow2 by lia.
  unfold edwards25519.multiply, edwards25519.square, ed.Multiply.
  destruct (Z.testbit (u8 b) (Z.of_nat j)); cbn [negb Z.b2z]; cbv zeta;
    rewrite !power_mul by lia; f_equal; f_equal; lia.
Qed.

Lemma rounds_power (s : Z) (b : byte) (n : nat) :
  (n <= 8)%nat -> forall k, 0 <= k ->
  edwards25519.rounds n b (power s k, power s (k + 1)) =
  let k' := k * 2 ^ Z.of_nat n + u8 b mod 2 ^ Z.of_nat n in
  (power s k', power s (k' + 1)).
Proof.
  induction n as [|n IH]; intros Hn k Hk.
  - cbn [edwards25519.rounds]. cbv zeta.
    change (2 ^ Z.of_nat 0) with 1. rewrite Z.mod_1_r.
    do 2 f_equal; lia.
  - cbn [edwards25519.rounds]. rewrite round_power by lia. cbv zeta.
    assert (Hb : 0 <= Z.b2z (Z.testbit (u8 b) (Z.of_nat n)) <= 1)
      by (destruct (Z.testbit (u8 b) (Z.of_nat n)); simpl; lia).
    rewrite IH by lia. cbv zeta.
    rewrite Nat2Z.inj_succ, <- Z.add_1_r.
    rewrite (mod_pow2_succ (u8 b)) by lia.
    rewrite Z.pow_add_r, Z.pow_1_r by lia.
    do 2 f_equal; ring.
Qed.

Lemma le_combine_snoc (xs : list byte) (b : byte) :
  le_combine (xs ++ [b]) = le_combine xs + 256 ^ Z.of_nat (length xs) * u8 b.
Proof.
  induction xs as [|x xs IH].
  - cbn [app length]. rewrite le_combine_cons.
    change (le_combine []) with 0. change (256 ^ Z.of_nat 0) with 1. lia.
  - cbn [app length]. rewrite !le_combine_cons, IH.
    rewrite Nat2Z.inj_succ, Z.pow_succ_r by lia. ring.
Qed.

Lemma firstn_succ_index (bytes : list byte) (n : nat) :
  (n < length bytes)%nat ->
  firstn (S n) bytes = firstn n bytes ++ [index bytes n].
Proof.
  revert bytes. induction n as [|n IH]; intros [|b bytes] Hn;
    cbn [length] in Hn; try lia.
  - reflexivity.
  - change (firstn (S (S n)) (b :: bytes)) with (b :: firstn (S n) bytes).
    rewrite IH by lia. reflexivity.
Qed.

Lemma lower_bytes_power (s : Z) (bytes : list byte) (n : nat) :
  (n <= length bytes)%nat -> forall k, 0 <= k ->
  edwards25519.lower_bytes n bytes (power s k, power s (k + 1)) =
  let k' := k * 256 ^ Z.of_nat n + le_combine (firstn n bytes) in
  (power s k', power s (k' + 1)).
Proof.
  induction n as [|n IH]; intros Hn k Hk.
  - cbn [edwards25519.lower_bytes firstn]. cbv zeta.
    change (le_combine []) with 0. change (256 ^ Z.of_nat 0) with 1.
    do 2 f_equal; lia.
  - cbn [edwards25519.lower_bytes].
    rewrite rounds_power by lia. cbv zeta.
    pose proof (u8_range (index bytes n)) as Hb.
    change (2 ^ Z.of_nat 8) with 256.
    rewrite (Z.mod_small (u8 (index bytes n))) by lia.
    rewrite IH by lia. cbv zeta.
    rewrite firstn_succ_index, le_combine_snoc by lia.
    rewrite length_firstn, Nat.min_l by lia.
    rewrite Nat2Z.inj_succ, Z.pow_succ_r by lia.
    do 2 f_equal; ring.
Qed.

Lemma all_zero_le_combine (bs : list byte) : all_zero bs -> le_combine bs = 0.
Proof.
  induction 1 as [|b bs Hb _ IH].
  - reflexivity.
  - rewrite le_combine_cons, IH, Hb. reflexivity.
Qed.

(** [getMSByte] finds the last non-zero byte, if there is one. *)
Lemma getMSByte_loop_last (rest : list byte) (i msb : nat) :
  (all_zero rest /\ edwards25519.getMSByte_loop i rest msb = msb) \/
  (exists j, (j < length rest)%nat /\
             edwards25519.getMSByte_loop i rest msb = (i + j)%nat /\
             index rest j <> Byte.x00 /\
             all_zero (skipn (S j) rest)).
Proof.
  revert i msb. induction rest as [|b rest IH]; intros i msb.
  - left. split; [constructor|reflexivity].
  - cbn [edwards25519.getMSByte_loop].
    destruct (IH (S i) (if negb (u8 b =? 0) then i else msb))
      as [[Hz Hr]|[j [Hj [Hr [Hnz Hz]]]]].
    + destruct (Z.eqb_spec (u8 b) 0) as [Hb|Hb]; cbn [negb] in *.
      * left. split; [|exact Hr].
        constructor; [now apply u8_zero_iff|exact Hz].
      * right. exists 0%nat. cbn [length skipn index nth].
        repeat split; [lia|rewrite Hr; lia| |exact Hz].
        intros E. apply Hb. now apply u8_zero_iff.
    + right. exists (S j). cbn [length]. split; [lia|].
      split; [rewrite Hr; lia|]. split; [exact Hnz|exact Hz].
Qed.

Lemma getMSByte_last (bytes : list byte) :
  le_combine bytes <> 0 ->
  let m := edwards25519.getMSByte bytes in
  (m < length bytes)%nat /\
  u8 (index bytes m) <> 0 /\
  le_combine bytes = le_combine (firstn (S m) bytes).
Proof.
  intros Hnz. cbv zeta. unfold edwards25519.getMSByte.
  destruct (getMSByte_loop_last bytes 0 0)
    as [[Hz _]|[j [Hj [Hr [Hb Hz]]]]].
  - exfalso. apply Hnz. now apply all_zero_le_combine.
  - rewrite Hr. cbn [Nat.add]. split; [exact Hj|]. split.
    + intros E. apply Hb. now apply u8_zero_iff.
    + rewrite <- (firstn_skipn (S j) bytes) at 1.
      assert (Hrep : skipn (S j) bytes
                     = repeat Byte.x00 (length (skipn (S j) bytes))).
      { clear -Hz. induction Hz as [|x xs Hx _ IH]; [reflexivity|].
        cbn [length repeat]. now rewrite Hx, <- IH. }
      rewrite Hrep. apply le_combine_app_0.
Qed.

(** [getMSBit] finds the highest bit set in a non-zero byte. *)
Lemma getMSBit_highest (b : byte) :
  u8 b <> 0 ->
  let t := edwards25519.getMSBit b in
  (t <= 8)%nat /\ u8 b = 2 ^ Z.of_nat t + u8 b mod 2 ^ Z.of_nat t.
Proof.
  intros Hb. cbv zeta.
  assert (H : (Nat.leb (edwards25519.getMSBit b) 8
               && (u8 b / 2 ^ Z.of_nat (edwards25519.getMSBit b) =? 1))%bool
              = true).
  { destruct b; try (exfalso; apply Hb; reflexivity); vm_compute; reflexivity. }
  apply andb_true_iff in H. destruct H as [Ht Hq].
  apply Nat.leb_le in Ht. apply Z.eqb_eq in Hq. split; [exact Ht|].
  rewrite (Z.div_mod (u8 b) (2 ^ Z.of_nat (edwards25519.getMSBit b))) at 1
    by (apply Z.pow_nonzero; lia).
  rewrite Hq. lia.
Qed.

(** The two loops of [Pow], started on [(s, s * s)], end on
    [(s ** e, s ** (e + 1))] when [e] is not zero. *)
Lemma ladder_power (s e : Z) :
  0 <= s < ed.l -> 0 <= e < ed.l -> e <> 0 ->
  let bytes := le_split 32 e in
  let msbyte := edwards25519.getMSByte bytes in
  let msbit := edwards25519.getMSBit (index bytes msbyte) in
  edwards25519.lower_bytes msbyte bytes
    (edwards25519.rounds msbit (index bytes msbyte) (s, (s * s) mod ed.l))
  = (power s e, power s (e + 1)).
Proof.
  intros Hs He Hnz. cbv zeta.
  assert (Hlen : length (le_split 32 e) = 32%nat) by apply length_le_split.
  assert (Hval : le_combine (le_split 32 e) = e)
    by (apply le_combine_split_32; exact He).
  set (bytes := le_split 32 e) in *.
  assert (Hbytes : le_combine bytes <> 0) by (rewrite Hval; exact Hnz).
  destruct (getMSByte_last bytes Hbytes) as [Hm [Hb Hfirst]].
  set (m := edwards25519.getMSByte bytes) in *.
  destruct (getMSBit_highest (index bytes m) Hb) as [Ht Hhigh].
  set (t := edwards25519.getMSBit (index bytes m)) in *.
  assert (H1 : (s, (s * s) mod ed.l) = (power s 1, power s (1 + 1))).
  { rewrite power_1 by exact Hs. unfold power.
    do 2 f_equal. change (1 + 1) with 2. ring. }
  rewrite H1, rounds_power by lia. cbv zeta.
  rewrite Z.mul_1_l, <- Hhigh.
  pose proof (u8_range (index bytes m)) as Hrange.
  rewrite lower_bytes_power by lia. cbv zeta.
  assert (Hk : u8 (index bytes m) * 256 ^ Z.of_nat m
               + le_combine (firstn m bytes) = e).
  { rewrite <- Hval, Hfirst, firstn_succ_index, le_combine_snoc by exact Hm.
    rewrite length_firstn, Nat.min_l by lia. ring. }
  rewrite Hk. reflexivity.
Qed.

Lemma IsZero_false (e : Z) : e <> 0 -> edwards25519.IsZero e = false.
Proof.
  intros Hnz. unfold edwards25519.IsZero, ed.Equal, ed.NewScalar.
  destruct (Z.eqb_spec e 0); [contradiction|reflexivity].
Qed.

(** [Pow] of the [edwards25519] backend on a non-zero exponent. *)
Lemma edwards_Pow_power (s e : Z) :
  0 <= s < ed.l -> 0 <= e < ed.l -> e <> 0 ->
  edwards25519.Pow s (Some (Edwards25519 e)) = Return (power s e).
Proof.
  intros Hs He Hnz. unfold edwards25519.Pow.
  cbn [edwards25519.assert internal.bind].
  unfold edwards25519.copy, ed.Set_, ed.Bytes.
  change (edwards25519.square s) with ((s * s) mod ed.l).
  pose proof (ladder_power s e Hs He Hnz) as H. cbv zeta in H.
  unfold edwards25519.Scalar, ed.Scalar.
  rewrite H, (IsZero_false e Hnz). reflexivity.
Qed.

(** [Pow] of the [ristretto] backend on a non-zero exponent. *)
Lemma ristretto_Pow_power (s e : Z) :
  0 <= s < ed.l -> 0 <= e < ed.l -> e <> 0 ->
  ristretto.Pow s (Some (Ristretto255 e)) = Return (power s e).
Proof.
  intros Hs He Hnz. unfold ristretto.Pow.
  cbn [ristretto.assert internal.bind].
  assert (Hcopy : ristretto.copy s = s).
  { unfold ristretto.copy, ristretto255.Add, ristretto255.NewScalar.
    rewrite Z.add_0_l. now apply Z.mod_small. }
  rewrite Hcopy.
  unfold ristretto.Encode, ristretto255.Encode. cbn [app].
  change ristretto.getMSByte with edwards25519.getMSByte.
  change ristretto.getMSBit with edwards25519.getMSBit.
  change ristretto.rounds with edwards25519.rounds.
  change ristretto.lower_bytes with edwards25519.lower_bytes.
  change (ristretto.square s) with ((s * s) mod ed.l).
  change ristretto.IsZero with edwards25519.IsZero.
  pose proof (ladder_power s e Hs He Hnz) as H. cbv zeta in H.
  unfold ristretto.Scalar, ristretto255.Scalar.
  rewrite H, (IsZero_false e Hnz).
  unfold ristretto.set, ristretto255.Add, ristretto.scZero,
    ristretto255.NewScalar.
  rewrite Z.add_0_l, Z.mod_small by apply power_range. reflexivity.
Qed.

(** C3: for a non-zero exponent of the same group, [Pow] sets the receiver
    to the receiver raised to the exponent, modulo the group order. *)
Theorem Pow_is_modular_exponentiation (s e : ecc.Scalar) :
  canonical s -> canonical e -> same_group s e = true -> value e <> 0 ->
  exists r, ecc.Scalar_Pow s (Some e) = Return r /\
            same_group r s = true /\
            value r = value s ^ value e mod ed.l.
Proof.
  intros Hs He Hg Hnz.
  destruct s as [[s|s]], e as [[e|e]]; try discriminate Hg;
    unfold canonical, value in *; cbn [ecc.inner] in *.
  - exists (ristretto_scalar (power s e)).
    unfold ecc.Scalar_Pow, iScalar.Pow, iScalar.lift_outcome.
    cbn [ecc.inner]. rewrite ristretto_Pow_power by assumption.
    repeat split.
  - exists (edwards_scalar (power s e)).
    unfold ecc.Scalar_Pow, iScalar.Pow, iScalar.lift_outcome.
    cbn [ecc.inner]. rewrite edwards_Pow_power by assumption.
    repeat split.
Qed.

Lemma Pow_is_modular_exponentiation_witness :
  exists r, ecc.Scalar_Pow (ristretto_scalar 5) (Some (ristretto_scalar 7))
            = Return r /\
            same_group r (ristretto_scalar 5) = true /\
            value r = 5 ^ 7 mod ed.l.
Proof.
  apply (Pow_is_modular_exponentiation (ristretto_scalar 5) (ristretto_scalar 7)).
  - split; [discriminate | reflexivity].
  - split; [discriminate | reflexivity].
  - reflexivity.
  - discriminate.
Defined.

Lemma edwards_Pow_zero (s : Z) :
  edwards25519.Pow s (Some (Edwards25519 0)) = Return 1.
Proof. reflexivity. Qed.

Lemma ristretto_Pow_zero (s : Z) :
  ristretto.Pow s (Some (Ristretto255 0)) = Return 1.
Proof. reflexivity. Qed.

Lemma Scalar_One_is_one (s : ecc.Scalar) :
  value (ecc.Scalar_One s) = 1 /\ same_group (ecc.Scalar_One s) s = true.
Proof. destruct s as [[v|v]]; split; reflexivity. Qed.

(** C4: [Pow(nil)] and [Pow(zero)] set the receiver to one, whatever the
    receiver, and [Pow(one)] leaves the receiver unchanged. *)
Theorem Pow_nil_zero_one (s : ecc.Scalar) :
  canonical s ->
  ecc.Scalar_Pow s None = Return (ecc.Scalar_One s) /\
  ecc.Scalar_Pow s (Some (ecc.Scalar_Zero s)) = Return (ecc.Scalar_One s) /\
  ecc.Scalar_Pow s (Some (ecc.Scalar_One s)) = Return s /\
  value (ecc.Scalar_One s) = 1 /\
  same_group (ecc.Scalar_One s) s = true.
Proof.
  intros Hs. split; [reflexivity|]. split; [|split].
  - destruct s as [[v|v]];
      unfold ecc.Scalar_Pow, iScalar.Pow, iScalar.lift_outcome, ecc.Scalar_Zero;
      cbn [ecc.inner iScalar.Zero iScalar.lift].
    + change (ristretto.Zero v) with 0. rewrite ristretto_Pow_zero. reflexivity.
    + change (edwards25519.Zero v) with 0. rewrite edwards_Pow_zero. reflexivity.
  - assert (H1 : 0 <= 1 < ed.l) by (split; [discriminate|reflexivity]).
    assert (H2 : 1 <> 0) by discriminate.
    destruct s as [[v|v]]; unfold canonical, value in Hs; cbn [ecc.inner] in Hs;
      unfold ecc.Scalar_Pow, iScalar.Pow, iScalar.lift_outcome, ecc.Scalar_One;
      cbn [ecc.inner iScalar.One iScalar.lift].
    + change (ristretto.One v) with 1.
      rewrite (ristretto_Pow_power v 1 Hs H1 H2), power_1 by exact Hs.
      reflexivity.
    + change (edwards25519.One v) with 1.
      rewrite (edwards_Pow_power v 1 Hs H1 H2), power_1 by exact Hs.
      reflexivity.
  - apply Scalar_One_is_one.
Qed.

Lemma Pow_nil_zero_one_witness :
  ecc.Scalar_Pow (edwards_scalar 0) (Some (ecc.Scalar_Zero (edwards_scalar 0)))
  = Return (ecc.Scalar_One (edwards_scalar 0)).
Proof.
  apply (proj1 (proj2 (Pow_nil_zero_one (edwards_scalar 0)
                         (conj (Z.le_refl 0) eq_refl)))).
Defined.

(** ** Decoding elements *)

Section ElementDecoding.

Context {provider : ed.PointProvider}.

Lemma Element_Decode_success (recv r : ecc.Element) (data : list byte) :
  ecc.Element_Decode recv data = (r, None) ->
  ecc.Element_IsIdentity r = false.
Proof.
  unfold ecc.Element_Decode, edwards25519.Element_Decode,
    edwards25519.decodeElement, ecc.Element_IsIdentity,
    edwards25519.IsIdentity.
  destruct (Nat.eqb (length data) 0); [discriminate|].
  destruct (ed.SetBytes ed.NewIdentityPoint data) as [q [err|]];
    [discriminate|].
  destruct (ed.Point_Equal q ed.NewIdentityPoint =? 1) eqn:E;
    [discriminate|].
  intros H. injection H as <-. exact E.
Qed.

(** C5: decoding the encoding of an identity element fails with the
    identity error, which is not the error of an invalid encoding; and
    decoding the encoding of any other element succeeds, with an element
    that is equal to it and that re-encodes to the same bytes. The provider
    is any that decodes the encoding of the element to a point equal to it,
    of whatever representation. A successful [Decode] never yields the
    identity. *)
Theorem Element_Decode_identity_policy
  (recv e : ecc.Element) (q : ed.Point) :
  length (ecc.Element_Encode e) <> 0%nat ->
  provider_decodes e q ->
  (if ecc.Element_IsIdentity e
   then exists err,
       ecc.Element_Decode recv (ecc.Element_Encode e) = (recv, Some err) /\
       Is err ErrIdentity = true /\
       Is err ErrParamInvalidPointEncoding = false
   else
     exists r,
       ecc.Element_Decode recv (ecc.Element_Encode e) = (r, None) /\
       ecc.Element_Equal r (Some e) = Return true /\
       ecc.Element_Encode r = ecc.Element_Encode e) /\
  (forall data r,
      ecc.Element_Decode recv data = (r, None) ->
      ecc.Element_IsIdentity r = false).
Proof.
  intros Hlen [Hdec [Heq [Hbytes Hid]]].
  split; [|intros data r; apply Element_Decode_success].
  assert (H : ecc.Element_Decode recv (ecc.Element_Encode e)
              = if ecc.Element_IsIdentity e
                then (recv, Some (Errorf "element Decode: "
                        (Errorf "invalid edwards25519 encoding: "
                           ErrIdentity)))
                else (ecc.newPoint q, None)).
  { unfold ecc.Element_Decode, edwards25519.Element_Decode,
      edwards25519.decodeElement.
    destruct (Nat.eqb_spec (length (ecc.Element_Encode e)) 0) as [E|_];
      [contradiction|].
    rewrite Hdec, Hid.
    unfold ecc.Element_IsIdentity, edwards25519.IsIdentity.
    destruct (ed.Point_Equal (ecc.point e) ed.NewIdentityPoint =? 1).
    - destruct recv; reflexivity.
    - reflexivity. }
  rewrite H. destruct (ecc.Element_IsIdentity e).
  - eexists. split; [reflexivity|]. split; reflexivity.
  - exists (ecc.newPoint q). split; [reflexivity|]. split.
    + unfold ecc.Element_Equal, edwards25519.Element_Equal,
        edwards25519.checkElement.
      cbn [ecc.point internal.bind]. rewrite Heq. reflexivity.
    + unfold ecc.Element_Encode, edwards25519.Element_Encode.
      cbn [ecc.point]. exact Hbytes.
Qed.

End ElementDecoding.

(** The executable provider rejects the encoding of its identity and
    round-trips its generator; the projective provider round-trips its
    generator from a representative that decoding does not give back. *)
Lemma Element_Decode_identity_policy_witness :
  (exists err,
      ecc.Element_Decode affine_B (ecc.Element_Encode affine_O)
      = (affine_B, Some err) /\
      Is err ErrIdentity = true /\
      Is err ErrParamInvalidPointEncoding = false) /\
  (exists r,
      ecc.Element_Decode affine_O (ecc.Element_Encode affine_B) = (r, None) /\
      ecc.Element_Equal r (Some affine_B) = Return true /\
      ecc.Element_Encode r = ecc.Element_Encode affine_B) /\
  (exists r,
      ecc.Element_Decode projective_O (ecc.Element_Encode projective_B)
      = (r, None) /\
      ecc.Element_Equal r (Some projective_B) = Return true /\
      ecc.Element_Encode r = ecc.Element_Encode projective_B).
Proof.
  split; [|split].
  - refine (proj1 (@Element_Decode_identity_policy affine.provider
                     affine_B affine_O affine.identity _ _)).
    + vm_compute. discriminate.
    + vm_compute. repeat split.
  - refine (proj1 (@Element_Decode_identity_policy affine.provider
                     affine_O affine_B affine.generator _ _)).
    + vm_compute. discriminate.
    + vm_compute. repeat split.
  - assert (H : length (ecc.Element_Encode projective_B) <> 0%nat)
      by (vm_compute; discriminate).
    assert (H' : provider_decodes projective_B projective.generator)
      by (vm_compute; repeat split).
    assert (Hid : ecc.Element_IsIdentity projective_B = false)
      by (vm_compute; reflexivity).
    destruct (@Element_Decode_identity_policy projective.provider
                projective_O projective_B projective.generator H H')
      as [Hpolicy _].
    rewrite Hid in Hpolicy. exact Hpolicy.
Defined.

(** On the projective provider the decoded point is not the representative
    that was encoded. *)
Lemma projective_representatives :
  ecc.point
    (fst (ecc.Element_Decode projective_O (ecc.Element_Encode projective_B)))
  = projective.generator /\
  projective.generator <> ecc.point projective_B.
Proof.
  split; [vm_compute; reflexivity|].
  intros H. apply (f_equal (fun q : projective.Point => snd q)) in H.
  vm_compute in H. discriminate H.
Qed.

(** ** The executable provider on known values *)

(** The constants are those of the curve: [sqrtM1] is a square root of -1,
    [d] is [-121665/121666], and the generator, whose [y] is [4/5], is on the
    curve. *)
Lemma affine_constants :
  affine.fmul affine.sqrtM1 affine.sqrtM1 = affine.fneg 1 /\
  affine.fmul affine.d 121666 = affine.fneg 121665 /\
  affine.fmul (snd affine.generator) 5 = 4 /\
  (let '(x, y) := affine.generator in
   affine.fsub (affine.fmul y y) (affine.fmul x x)
   = affine.fadd 1 (affine.fmul affine.d
                      (affine.fmul (affine.fmul x x) (affine.fmul y y)))).
Proof. repeat split; vm_compute; reflexivity. Qed.

(** The encodings of the identity and of the generator are the well-known
    ones: 01 00 .. 00 and 58 66 .. 66. *)
Lemma affine_encodings :
  map u8 (ecc.Element_Encode affine_O) = 1 :: repeat 0 31 /\
  map u8 (ecc.Element_Encode affine_B) = 88 :: repeat 102 31.
Proof. split; vm_compute; reflexivity. Qed.

(** ** Operands of another group *)

(** X1: a binary operation of a scalar panics with [ErrCastScalar] when its
    operand belongs to another backend, with one exception. It holds of
    every binary operation of the public scalar over edwards25519 and
    ristretto given a scalar of the other of the two, of the multiplication
    of an element by a scalar that is not of the element's backend, and of
    [Add], [Subtract], [Multiply], [Set], [Equal] and [LessOrEqual] of
    secp256k1 given a scalar of those two backends. The exception is [Pow]
    of secp256k1, which tests its operand for zero before it asserts its
    type: it returns one on the zero scalar of another backend, and panics
    on any other. *)
Theorem cross_group_operand_panics
  (provider : ed.PointProvider) (e : ecc.Element) (s x : ecc.Scalar) (v : Z)
  (k : secp256k1.Scalar) (f : internal.Scalar) :
  same_group s x = false ->
  (ecc.Scalar_Add s (Some x) = Panic ErrCastScalar /\
   ecc.Scalar_Subtract s (Some x) = Panic ErrCastScalar /\
   ecc.Scalar_Multiply s (Some x) = Panic ErrCastScalar /\
   ecc.Scalar_Pow s (Some x) = Panic ErrCastScalar /\
   ecc.Scalar_Set s (Some x) = Panic ErrCastScalar /\
   ecc.Scalar_Equal s (Some x) = Panic ErrCastScalar /\
   ecc.Scalar_LessOrEqual s (Some x) = Panic ErrCastScalar /\
   ecc.Element_Multiply e (Some (ristretto_scalar v)) = Panic ErrCastScalar) /\
  (secp256k1.Add k (Some (secp256k1.Foreign f)) = Panic ErrCastScalar /\
   secp256k1.Subtract k (Some (secp256k1.Foreign f)) = Panic ErrCastScalar /\
   secp256k1.Multiply k (Some (secp256k1.Foreign f)) = Panic ErrCastScalar /\
   secp256k1.Set_ k (Some (secp256k1.Foreign f)) = Panic ErrCastScalar /\
   secp256k1.Equal k (Some (secp256k1.Foreign f)) = Panic ErrCastScalar /\
   secp256k1.LessOrEqual k (Some (secp256k1.Foreign f))
   = Panic ErrCastScalar) /\
  secp256k1.Pow k (Some (secp256k1.Foreign f))
  = (if iScalar.IsZero f then Return (secp256k1.One k)
     else Panic ErrCastScalar).
Proof.
  intros Hg. split; [|split].
  - destruct s as [[s|s]], x as [[x|x]]; try discriminate Hg.
    all: do 7 (split; [reflexivity|]); reflexivity.
  - do 5 (split; [reflexivity|]); reflexivity.
  - unfold secp256k1.Pow, secp256k1.operand_IsZero, iScalar.IsZero,
      iScalar.query.
    destruct f as [sc|sc].
    + destruct (ristretto.IsZero sc); reflexivity.
    + destruct (edwards25519.IsZero sc); reflexivity.
Qed.

Lemma cross_group_operand_panics_witness :
  ecc.Scalar_Add (edwards_scalar 3) (Some (ristretto_scalar 4))
  = Panic ErrCastScalar /\
  secp256k1.Pow 3 (Some (secp256k1.Foreign (Edwards25519 0))) = Return 1 /\
  secp256k1.Pow 3 (Some (secp256k1.Foreign (Edwards25519 2)))
  = Panic ErrCastScalar.
Proof.
  split; [|split].
  - apply (proj1 (proj1 (cross_group_operand_panics affine.provider affine_B
                    (edwards_scalar 3) (ristretto_scalar 4) 0
                    3 (Edwards25519 0) eq_refl))).
  - apply (proj2 (proj2 (cross_group_operand_panics affine.provider affine_B
                    (edwards_scalar 3) (ristretto_scalar 4) 0
                    3 (Edwards25519 0) eq_refl))).
  - apply (proj2 (proj2 (cross_group_operand_panics affine.provider affine_B
                    (edwards_scalar 3) (ristretto_scalar 4) 0
                    3 (Edwards25519 2) eq_refl))).
Defined.

(** X2: on the backends, [Pow] and [LessOrEqual] panic with [ErrCastScalar]
    on a nil operand, where [Add], [Subtract], [Multiply], [Set] and [Equal]
    absorb it. *)
Theorem backend_nil_operand (s : Z) :
  edwards25519.Pow s None = Panic ErrCastScalar /\
  edwards25519.LessOrEqual s None = Panic ErrCastScalar /\
  ristretto.Pow s None = Panic ErrCastScalar /\
  ristretto.LessOrEqual s None = Panic ErrCastScalar /\
  edwards25519.Add s None = Return s /\
  edwards25519.Subtract s None = Return s /\
  edwards25519.Multiply s None = Return 0 /\
  edwards25519.Set_ s None = Return 0 /\
  edwards25519.Equal s None = Return 0 /\
  ristretto.Add s None = Return s /\
  ristretto.Subtract s None = Return s /\
  ristretto.Multiply s None = Return 0 /\
  ristretto.Set_ s None = Return 0 /\
  ristretto.Equal s None = Return 0.
Proof.
  do 13 (split; [reflexivity|]). reflexivity.
Qed.

(** ** The arithmetic of scalars *)

Lemma scalar_ext (a b : ecc.Scalar) :
  same_group a b = true -> value a = value b -> a = b.
Proof.
  destruct a as [[a|a]], b as [[b|b]]; unfold value; cbn [ecc.inner];
    intros Hg Hv; try discriminate Hg; now subst.
Qed.

Lemma edwards_MinusOne (v : Z) : edwards25519.MinusOne v = ed.l - 1.
Proof. vm_compute. reflexivity. Qed.

Lemma ristretto_MinusOne (v : Z) : ristretto.MinusOne v = ed.l - 1.
Proof. vm_compute. reflexivity. Qed.

Ltac run_scalar_ops :=
  unfold ecc.Scalar_Add, ecc.Scalar_Subtract, ecc.Scalar_Multiply,
    ecc.Scalar_Set, ecc.Scalar_Equal, ecc.Scalar_Copy, ecc.Scalar_Zero,
    ecc.Scalar_One, ecc.Scalar_MinusOne,
    iScalar.Add, iScalar.Subtract, iScalar.Multiply, iScalar.Set_,
    iScalar.Equal, iScalar.Copy, iScalar.Zero, iScalar.One, iScalar.MinusOne,
    iScalar.lift_outcome, iScalar.lift, iScalar.query;
  cbn [ecc.inner];
  rewrite ?edwards_MinusOne, ?ristretto_MinusOne;
  change (edwards25519.One _) with 1; change (ristretto.One _) with 1;
  unfold edwards25519.Add, edwards25519.Subtract, edwards25519.Multiply,
    edwards25519.Set_, edwards25519.Equal, edwards25519.Copy,
    edwards25519.Zero, edwards25519.multiply,
    ristretto.Add, ristretto.Subtract, ristretto.Multiply, ristretto.Set_,
    ristretto.Equal, ristretto.Copy, ristretto.copy, ristretto.Zero,
    ristretto.multiply;
  cbn [edwards25519.assert ristretto.assert internal.bind];
  unfold ed.Set_, ed.Add, ed.Subtract, ed.Multiply, ed.Equal, ed.NewScalar,
    ristretto255.Add, ristretto255.Subtract, ristretto255.Multiply,
    ristretto255.Equal, ristretto255.Zero, ristretto255.NewScalar.

(** X3: the ring laws the arithmetic visibly keeps: zero is neutral for
    [Add], a scalar minus itself is zero, one is neutral for [Multiply],
    [MinusOne] plus one is zero, [Subtract] undoes [Add], and [Add] gives
    the same value in either order. *)
Theorem scalar_ring_laws (s x : ecc.Scalar) :
  canonical s -> canonical x -> same_group s x = true ->
  ecc.Scalar_Add s (Some (ecc.Scalar_Zero s)) = Return s /\
  ecc.Scalar_Subtract s (Some s) = Return (ecc.Scalar_Zero s) /\
  ecc.Scalar_Multiply s (Some (ecc.Scalar_One s)) = Return s /\
  ecc.Scalar_Add (ecc.Scalar_MinusOne s) (Some (ecc.Scalar_One s))
  = Return (ecc.Scalar_Zero s) /\
  (exists r, ecc.Scalar_Add s (Some x) = Return r /\
             ecc.Scalar_Subtract r (Some x) = Return s) /\
  (exists r r', ecc.Scalar_Add s (Some x) = Return r /\
                ecc.Scalar_Add x (Some s) = Return r' /\
                value r = value r').
Proof.
  intros Hs Hx Hg. pose proof l_pos as Hl.
  destruct s as [[s|s]], x as [[x|x]]; try discriminate Hg;
    unfold canonical, value in Hs, Hx; cbn [ecc.inner] in Hs, Hx.
  all: split; [run_scalar_ops; now rewrite Z.add_0_r, Z.mod_small|].
  all: split; [run_scalar_ops; now rewrite Z.sub_diag, Z.mod_0_l by lia|].
  all: split; [run_scalar_ops; now rewrite Z.mul_1_r, Z.mod_small|].
  all: split;
    [run_scalar_ops; replace (ed.l - 1 + 1) with ed.l by lia;
     now rewrite Z.mod_same by lia|].
  all: split.
  all: try (eexists; split; [reflexivity|]; run_scalar_ops;
            rewrite Zminus_mod_idemp_l;
            replace (s + x - x) with s by lia; now rewrite Z.mod_small).
  all: eexists; eexists; split; [reflexivity|]; split; [reflexivity|].
  all: unfold value; run_scalar_ops; f_equal; lia.
Qed.

Lemma scalar_ring_laws_witness :
  ecc.Scalar_Subtract (ristretto_scalar 9) (Some (ristretto_scalar 9))
  = Return (ecc.Scalar_Zero (ristretto_scalar 9)).
Proof.
  apply (proj1 (proj2 (scalar_ring_laws (ristretto_scalar 9) (ristretto_scalar 9)
                         (conj (Zle_bool_imp_le 0 9 eq_refl) eq_refl)
                         (conj (Zle_bool_imp_le 0 9 eq_refl) eq_refl)
                         eq_refl))).
Defined.

(** X4: [Equal] answers whether the two values are the same and false on
    nil; [Copy] reproduces the scalar and [Set] makes the receiver the
    argument. *)
Theorem Equal_Copy_Set (r s x : ecc.Scalar) :
  canonical s -> same_group s x = true -> same_group r s = true ->
  ecc.Scalar_Equal s (Some x) = Return (value s =? value x) /\
  ecc.Scalar_Equal s None = Return false /\
  ecc.Scalar_Copy s = s /\
  ecc.Scalar_Set r (Some s) = Return s.
Proof.
  intros Hs Hgx Hgr.
  destruct s as [[s|s]], x as [[x|x]]; try discriminate Hgx;
    destruct r as [[r|r]]; try discriminate Hgr;
    unfold canonical, value in *; cbn [ecc.inner] in *.
  all: split;
    [run_scalar_ops; destruct (s =? x); reflexivity|].
  all: split; [reflexivity|].
  all: split; [run_scalar_ops|reflexivity].
  all: try reflexivity.
  all: rewrite Z.add_0_l, Z.mod_small by exact Hs; reflexivity.
Qed.

Lemma Equal_Copy_Set_witness :
  ecc.Scalar_Equal (ristretto_scalar 7) (Some (ristretto_scalar 8))
  = Return false.
Proof.
  apply (proj1 (Equal_Copy_Set (ristretto_scalar 1) (ristretto_scalar 7)
                  (ristretto_scalar 8)
                  (conj (Zle_bool_imp_le 0 7 eq_refl) eq_refl)
                  eq_refl eq_refl)).
Defined.

Lemma canonical_mod (g : Z -> internal.Scalar) (z : Z) :
  (g = Ristretto255 \/ g = Edwards25519) ->
  canonical (ecc.newScalar (g (z mod ed.l))).
Proof.
  intros [-> | ->]; unfold canonical, value; cbn [ecc.inner];
    apply Z.mod_pos_bound, l_pos.
Qed.

(** X5: on canonical operands of one group the arithmetic never panics, and
    it keeps the result canonical and in the group; so do the constants. *)
Theorem operations_keep_canonical (s x : ecc.Scalar) :
  canonical s -> canonical x -> same_group s x = true ->
  returns_canonical s (ecc.Scalar_Add s (Some x)) /\
  returns_canonical s (ecc.Scalar_Subtract s (Some x)) /\
  returns_canonical s (ecc.Scalar_Multiply s (Some x)) /\
  returns_canonical s (ecc.Scalar_Pow s (Some x)) /\
  returns_canonical s (ecc.Scalar_Set s (Some x)) /\
  returns_canonical s (Return (ecc.Scalar_Zero s)) /\
  returns_canonical s (Return (ecc.Scalar_One s)) /\
  returns_canonical s (Return (ecc.Scalar_MinusOne s)).
Proof.
  intros Hs Hx Hg. pose proof l_pos as Hl.
  assert (H1 : 0 <= 1 < ed.l) by (split; [discriminate|reflexivity]).
  assert (Hm : 0 <= ed.l - 1 < ed.l) by lia.
  destruct s as [[s|s]], x as [[x|x]]; try discriminate Hg;
    unfold canonical, value in Hs, Hx; cbn [ecc.inner] in Hs, Hx.
  all: split;
    [eexists; split; [reflexivity|]; split; [|reflexivity];
     run_scalar_ops; apply canonical_mod; auto|].
  all: split;
    [eexists; split; [reflexivity|]; split; [|reflexivity];
     run_scalar_ops; apply canonical_mod; auto|].
  all: split;
    [eexists; split; [reflexivity|]; split; [|reflexivity];
     run_scalar_ops; apply canonical_mod; auto|].
  all: split.
  1, 3: destruct (Z.eq_dec x 0) as [->|Hnz];
    unfold ecc.Scalar_Pow, iScalar.Pow, iScalar.lift_outcome; cbn [ecc.inner];
    [rewrite ?ristretto_Pow_zero, ?edwards_Pow_zero
    |rewrite ?(ristretto_Pow_power s x Hs Hx Hnz),
       ?(edwards_Pow_power s x Hs Hx Hnz)];
    cbn [internal.bind]; eexists; (split; [reflexivity|]);
    (split; [|reflexivity]); unfold canonical, value; cbn [ecc.inner];
    [exact H1|apply power_range].
  all: split;
    [eexists; split; [reflexivity|]; split; [|reflexivity];
     unfold canonical, value; cbn [ecc.inner]; exact Hx|].
  all: split;
    [eexists; split; [reflexivity|]; split; [|reflexivity];
     unfold canonical, value; run_scalar_ops; lia|].
  all: split; eexists; (split; [reflexivity|]); (split; [|reflexivity]);
    unfold canonical, value; run_scalar_ops; lia.
Qed.

Lemma operations_keep_canonical_witness :
  returns_canonical (edwards_scalar 6)
    (ecc.Scalar_Multiply (edwards_scalar 6) (Some (edwards_scalar 7))).
Proof.
  apply (proj1 (proj2 (proj2 (operations_keep_canonical
                  (edwards_scalar 6) (edwards_scalar 7)
                  (conj (Zle_bool_imp_le 0 6 eq_refl) eq_refl)
                  (conj (Zle_bool_imp_le 0 7 eq_refl) eq_refl)
                  eq_refl)))).
Defined.

(** ** The order [LessOrEqual] does decide *)

Lemma ristretto_LessOrEqual_edwards (a b : Z) :
  ristretto.LessOrEqual a (Some (Ristretto255 b))
  = edwards25519.LessOrEqual a (Some (Edwards25519 b)).
Proof.
  unfold ristretto.LessOrEqual, edwards25519.LessOrEqual.
  cbn [ristretto.assert edwards25519.assert internal.bind].
  unfold ristretto.Encode, ristretto255.Encode, edwards25519.Encode,
    ed.Bytes, ed.Set_.
  cbn [app]. reflexivity.
Qed.

(** No byte of the encoding of [a] exceeds the byte of [b] at its index. *)
Lemma bytewise_iff (a b : Z) :
  existsb (fun i => u8 (index (edwards25519.Encode a) i)
                    >? u8 (index (edwards25519.Encode b) i)) (seq 0 32)
  = false
  <-> forall i, (i < 32)%nat ->
        u8 (index (edwards25519.Encode a) i)
        <= u8 (index (edwards25519.Encode b) i).
Proof.
  split.
  - intros E i Hi.
    destruct (Z.gtb_spec (u8 (index (edwards25519.Encode a) i))
                         (u8 (index (edwards25519.Encode b) i))) as [Hgt|Hle];
      [|exact Hle].
    exfalso.
    assert (Hex : existsb
                    (fun i => u8 (index (edwards25519.Encode a) i)
                              >? u8 (index (edwards25519.Encode b) i))
                    (seq 0 32) = true).
    { apply existsb_exists. exists i. split; [apply in_seq; lia|].
      apply Z.gtb_gt. lia. }
    rewrite Hex in E. discriminate.
  - intros H.
    destruct (existsb _ (seq 0 32)) eqn:E; [|reflexivity].
    apply existsb_exists in E. destruct E as [i [Hin Hgt]].
    apply in_seq in Hin. apply Z.gtb_gt in Hgt.
    specialize (H i ltac:(lia)). lia.
Qed.

Lemma Scalar_LessOrEqual_bytewise (a b : ecc.Scalar) :
  same_group a b = true ->
  ecc.Scalar_LessOrEqual a (Some b) =
  Return (negb (existsb
                  (fun i => u8 (index (edwards25519.Encode (value a)) i)
                            >? u8 (index (edwards25519.Encode (value b)) i))
                  (seq 0 32))).
Proof.
  intros Hg.
  destruct a as [[a|a]], b as [[b|b]]; try discriminate Hg;
    unfold ecc.Scalar_LessOrEqual, iScalar.LessOrEqual, iScalar.query, value;
    cbn [ecc.inner];
    rewrite ?ristretto_LessOrEqual_edwards, edwards_LessOrEqual_bytewise;
    cbn [internal.bind]; destruct (existsb _ (seq 0 32)); reflexivity.
Qed.

Lemma Return_true_inv (c : bool) :
  @Return bool (negb c) = Return true -> c = false.
Proof. destruct c; [discriminate|reflexivity]. Qed.

(** X6: on canonical scalars of one group [LessOrEqual] is a partial order
    contained in the order of the integers: it is reflexive, antisymmetric
    and transitive, it holds only between [a] and [b] with [a <= b], and it
    holds between zero and every scalar. *)
Theorem LessOrEqual_partial_order (a b c : ecc.Scalar) :
  canonical a -> canonical b -> canonical c ->
  same_group a b = true -> same_group b c = true ->
  ecc.Scalar_LessOrEqual a (Some a) = Return true /\
  ecc.Scalar_LessOrEqual (ecc.Scalar_Zero a) (Some a) = Return true /\
  (ecc.Scalar_LessOrEqual a (Some b) = Return true -> value a <= value b) /\
  (ecc.Scalar_LessOrEqual a (Some b) = Return true ->
   ecc.Scalar_LessOrEqual b (Some a) = Return true -> a = b) /\
  (ecc.Scalar_LessOrEqual a (Some b) = Return true ->
   ecc.Scalar_LessOrEqual b (Some c) = Return true ->
   ecc.Scalar_LessOrEqual a (Some c) = Return true).
Proof.
  intros Ha Hb Hc Hab Hbc.
  assert (Haa : same_group a a = true) by (destruct a as [[a|a]]; reflexivity).
  assert (Hba : same_group b a = true)
    by (destruct a as [[a|a]], b as [[b|b]]; try discriminate; reflexivity).
  assert (Hac : same_group a c = true)
    by (destruct a as [[a|a]], b as [[b|b]], c as [[c|c]];
        try discriminate; reflexivity).
  assert (Hza : same_group (ecc.Scalar_Zero a) a = true)
    by apply Scalar_Zero_is_zero.
  assert (Hsound : forall u v : ecc.Scalar,
             canonical u -> canonical v -> same_group u v = true ->
             ecc.Scalar_LessOrEqual u (Some v) = Return true ->
             value u <= value v).
  { intros u v Hu Hv Huv H.
    rewrite (Scalar_LessOrEqual_bytewise u v Huv) in H.
    apply Return_true_inv in H.
    rewrite <- (le_combine_split_32 (value u) Hu),
      <- (le_combine_split_32 (value v) Hv).
    apply le_combine_bytewise; [now rewrite !length_le_split|].
    intros i Hi. rewrite length_le_split in Hi.
    exact (proj1 (bytewise_iff (value u) (value v)) H i Hi). }
  split; [|split; [|split; [|split]]].
  - rewrite (Scalar_LessOrEqual_bytewise a a Haa). f_equal.
    apply negb_true_iff, bytewise_iff. intros i Hi. lia.
  - rewrite (Scalar_LessOrEqual_bytewise _ a Hza). f_equal.
    apply negb_true_iff, bytewise_iff. intros i Hi.
    replace (value (ecc.Scalar_Zero a)) with 0 by (destruct a as [[a|a]]; reflexivity).
    assert (Hz : u8 (index (edwards25519.Encode 0) i) = 0).
    { do 32 (destruct i as [|i]; [reflexivity|]). lia. }
    rewrite Hz. apply u8_range.
  - apply (Hsound a b Ha Hb Hab).
  - intros H1 H2. apply scalar_ext; [exact Hab|].
    pose proof (Hsound a b Ha Hb Hab H1).
    pose proof (Hsound b a Hb Ha Hba H2). lia.
  - rewrite (Scalar_LessOrEqual_bytewise a b Hab),
      (Scalar_LessOrEqual_bytewise b c Hbc),
      (Scalar_LessOrEqual_bytewise a c Hac).
    intros H1 H2. apply Return_true_inv in H1. apply Return_true_inv in H2.
    f_equal. apply negb_true_iff, bytewise_iff. intros i Hi.
    pose proof (proj1 (bytewise_iff _ _) H1 i Hi).
    pose proof (proj1 (bytewise_iff _ _) H2 i Hi). lia.
Qed.

Lemma LessOrEqual_partial_order_witness :
  ecc.Scalar_LessOrEqual (edwards_scalar 300) (Some (edwards_scalar 300))
  = Return true.
Proof.
  apply (proj1 (LessOrEqual_partial_order
                  (edwards_scalar 300) (edwards_scalar 300) (edwards_scalar 300)
                  (conj (Zle_bool_imp_le 0 300 eq_refl) eq_refl)
                  (conj (Zle_bool_imp_le 0 300 eq_refl) eq_refl)
                  (conj (Zle_bool_imp_le 0 300 eq_refl) eq_refl)
                  eq_refl eq_refl)).
Defined.

(** ** Where the ladder starts *)

Lemma getMSBit_lt_8 (b : byte) : (edwards25519.getMSBit b < 8)%nat.
Proof. destruct b; vm_compute; lia. Qed.

(** X7: on the encoding of a non-zero exponent, [getMSByte] and [getMSBit]
    locate the highest set bit: eight times the byte index plus the bit
    index is the binary logarithm of the exponent. On the encoding of zero
    both are 0. *)
Theorem ladder_start_is_highest_bit (e : Z) :
  0 < e < ed.l ->
  let bytes := edwards25519.Encode e in
  let msbyte := edwards25519.getMSByte bytes in
  let msbit := edwards25519.getMSBit (index bytes msbyte) in
  8 * Z.of_nat msbyte + Z.of_nat msbit = Z.log2 e /\
  edwards25519.getMSByte (edwards25519.Encode 0) = 0%nat /\
  edwards25519.getMSBit (index (edwards25519.Encode 0) 0) = 0%nat.
Proof.
  intros He. cbv zeta. split; [|split; reflexivity].
  unfold edwards25519.Encode, ed.Bytes.
  assert (Hval : le_combine (le_split 32 e) = e)
    by (apply le_combine_split_32; lia).
  assert (Hlen : length (le_split 32 e) = 32%nat) by apply length_le_split.
  set (bytes := le_split 32 e) in *.
  assert (Hnz : le_combine bytes <> 0) by lia.
  destruct (getMSByte_last bytes Hnz) as [Hm [Hb Hfirst]].
  set (m := edwards25519.getMSByte bytes) in *.
  destruct (getMSBit_highest (index bytes m) Hb) as [_ Hhigh].
  pose proof (getMSBit_lt_8 (index bytes m)) as Ht.
  set (t := edwards25519.getMSBit (index bytes m)) in *.
  pose proof (u8_range (index bytes m)) as Hrange.
  pose proof (le_combine_bound (firstn m bytes)) as Hlow.
  rewrite length_firstn, Nat.min_l in Hlow by lia.
  assert (He' : e = le_combine (firstn m bytes)
                    + 256 ^ Z.of_nat m * u8 (index bytes m)).
  { rewrite <- Hval, Hfirst, firstn_succ_index, le_combine_snoc by exact Hm.
    rewrite length_firstn, Nat.min_l by lia. reflexivity. }
  assert (Hmod : 0 <= u8 (index bytes m) mod 2 ^ Z.of_nat t < 2 ^ Z.of_nat t)
    by (apply Z.mod_pos_bound, Z.pow_pos_nonneg; lia).
  assert (H256 : 256 ^ Z.of_nat m = 2 ^ (8 * Z.of_nat m)).
  { change 256 with (2 ^ 8). rewrite <- Z.pow_mul_r by lia. reflexivity. }
  rewrite H256 in He'. symmetry. apply Z.log2_unique; [lia|].
  rewrite <- Z.add_1_r.
  replace (8 * Z.of_nat m + Z.of_nat t + 1)
    with (8 * Z.of_nat m + (Z.of_nat t + 1)) by lia.
  rewrite !Z.pow_add_r by lia. rewrite Z.pow_1_r.
  assert (Hp : 0 < 2 ^ (8 * Z.of_nat m)) by (apply Z.pow_pos_nonneg; lia).
  assert (Hq : 0 < 2 ^ Z.of_nat t) by (apply Z.pow_pos_nonneg; lia).
  nia.
Qed.

Lemma ladder_start_is_highest_bit_witness :
  8 * Z.of_nat (edwards25519.getMSByte (edwards25519.Encode 513))
  + Z.of_nat (edwards25519.getMSBit
                (index (edwards25519.Encode 513)
                       (edwards25519.getMSByte (edwards25519.Encode 513))))
  = Z.log2 513.
Proof.
  apply (proj1 (ladder_start_is_highest_bit 513 (conj eq_refl eq_refl))).
Defined.

(** ** Powers and products *)

(** X8: [Pow] turns sums of exponents into products: for non-zero
    exponents [a], [b] and [c = a + b] of the group of [s], the power by [c]
    is the [Multiply] of the powers by [a] and by [b]. *)
Theorem Pow_of_sum_is_product (s a b c : ecc.Scalar) :
  canonical s -> canonical a -> canonical b -> canonical c ->
  same_group s a = true -> same_group s b = true -> same_group s c = true ->
  value a <> 0 -> value b <> 0 -> value c = value a + value b ->
  exists ra rb rc,
    ecc.Scalar_Pow s (Some a) = Return ra /\
    ecc.Scalar_Pow s (Some b) = Return rb /\
    ecc.Scalar_Pow s (Some c) = Return rc /\
    ecc.Scalar_Multiply ra (Some rb) = Return rc.
Proof.
  intros Hs Ha Hb Hc Hga Hgb Hgc Hna Hnb Hsum.
  destruct s as [[s|s]], a as [[a|a]]; try discriminate Hga;
    destruct b as [[b|b]]; try discriminate Hgb;
    destruct c as [[c|c]]; try discriminate Hgc;
    unfold canonical, value in *; cbn [ecc.inner] in *.
  all: assert (Hnc : c <> 0) by lia.
  - exists (ristretto_scalar (power s a)), (ristretto_scalar (power s b)),
      (ristretto_scalar (power s c)).
    unfold ecc.Scalar_Pow, iScalar.Pow, iScalar.lift_outcome. cbn [ecc.inner].
    rewrite !ristretto_Pow_power by assumption. cbn [internal.bind].
    do 3 (split; [reflexivity|]).
    unfold ristretto_scalar. run_scalar_ops.
    rewrite power_mul by lia. now rewrite Hsum.
  - exists (edwards_scalar (power s a)), (edwards_scalar (power s b)),
      (edwards_scalar (power s c)).
    unfold ecc.Scalar_Pow, iScalar.Pow, iScalar.lift_outcome. cbn [ecc.inner].
    rewrite !edwards_Pow_power by assumption. cbn [internal.bind].
    do 3 (split; [reflexivity|]).
    unfold edwards_scalar. run_scalar_ops.
    rewrite power_mul by lia. now rewrite Hsum.
Qed.

Lemma Pow_of_sum_is_product_witness :
  exists ra rb rc,
    ecc.Scalar_Pow (edwards_scalar 3) (Some (edwards_scalar 2)) = Return ra /\
    ecc.Scalar_Pow (edwards_scalar 3) (Some (edwards_scalar 5)) = Return rb /\
    ecc.Scalar_Pow (edwards_scalar 3) (Some (edwards_scalar 7)) = Return rc /\
    ecc.Scalar_Multiply ra (Some rb) = Return rc.
Proof.
  apply (Pow_of_sum_is_product (edwards_scalar 3) (edwards_scalar 2)
           (edwards_scalar 5) (edwards_scalar 7)).
  1-4: split; [discriminate | reflexivity].
  1-3: reflexivity.
  1-2: discriminate.
  reflexivity.
Defined.

(** ** Canonical encodings *)

(** X9: a scalar [Decode] accepts is determined by its input and encodes
    back to exactly that input: the input has 32 bytes, its magnitude is
    below the order, and the receiver becomes the canonical scalar of that
    magnitude. *)
Theorem Scalar_Decode_is_canonical (s s' : ecc.Scalar) (data : list byte) :
  ecc.Scalar_Decode s data = (s', None) ->
  length data = 32%nat /\
  le_combine data < ed.l /\
  value s' = le_combine data /\
  canonical s' /\
  same_group s' s = true /\
  ecc.Scalar_Encode s' = data.
Proof.
  rewrite Scalar_Decode_cases.
  destruct (Nat.eqb_spec (length data) 0) as [H0|H0]; [discriminate|].
  destruct (Nat.eqb_spec (length data) 32) as [H32|H32]; cbn [negb];
    [|discriminate].
  destruct (Z.leb_spec ed.l (le_combine data)) as [Hl|Hl]; [discriminate|].
  intros H. injection H as <-.
  pose proof (le_combine_bound data) as Hb.
  destruct s as [[v|v]]; cbn [ecc.inner iScalar.lift];
    unfold canonical, value, ecc.Scalar_Encode, iScalar.Encode, iScalar.query,
      ristretto.Encode, ristretto255.Encode, edwards25519.Encode, ed.Bytes;
    cbn [ecc.inner app];
    (split; [exact H32|]); (split; [exact Hl|]); (split; [reflexivity|]);
    (split; [lia|]); (split; [reflexivity|]);
    apply split_le_combine'; exact H32.
Qed.

Lemma Scalar_Decode_is_canonical_witness :
  length (Byte.x07 :: repeat Byte.x00 31) = 32%nat.
Proof.
  apply (proj1 (Scalar_Decode_is_canonical (edwards_scalar 0) (edwards_scalar 7)
                  (Byte.x07 :: repeat Byte.x00 31) eq_refl)).
Defined.

(** ** 64-bit coercion by magnitude *)

Lemma word64_unsigned_of_Z (v : Z) :
  0 <= v < 2 ^ 64 -> word.unsigned (word.of_Z v : Naive.word64) = v.
Proof.
  intros H. rewrite word.unsigned_of_Z. unfold word.wrap.
  apply Z.mod_small. exact H.
Qed.

(** The bytes above the low eight hold the magnitude divided by [2^64]. *)
Lemma high_bytes_not_zero (v : Z) :
  2 ^ 64 <= v < 2 ^ 256 -> ~ all_zero (skipn 8 (le_split 32 v)).
Proof.
  intros Hv Hz. apply all_zero_le_combine in Hz.
  rewrite skipn_le_split in Hz by lia.
  rewrite le_combine_split in Hz.
  change (Z.of_nat (32 - 8) * 8) with 192 in Hz.
  change (8 * Z.of_nat 8) with 64 in Hz.
  rewrite Z.shiftr_div_pow2 in Hz by lia.
  assert (H1 : 1 <= v / 2 ^ 64) by (apply Z.div_le_lower_bound; lia).
  assert (H2 : v / 2 ^ 64 < 2 ^ 192).
  { apply Z.div_lt_upper_bound; [lia|].
    change (2 ^ 64 * 2 ^ 192) with (2 ^ 256). lia. }
  rewrite Z.mod_small in Hz by lia. lia.
Qed.

(** X10: on a canonical scalar [UInt64] succeeds exactly when the value is
    below [2^64], and then returns the value; otherwise it returns 0 and
    [ErrUInt64TooBig]. The same holds on the big-endian secp256k1 backend. *)
Theorem UInt64_by_magnitude (s : ecc.Scalar) (k : secp256k1.Scalar) :
  canonical s -> 0 <= k < secp256k1_provider.order ->
  ecc.Scalar_UInt64 s =
  (if value s <? 2 ^ 64 then (word.of_Z (value s), None)
   else (word.of_Z 0, Some (Errorf "" ErrUInt64TooBig))) /\
  secp256k1.UInt64 k =
  (if k <? 2 ^ 64 then (word.of_Z k, None)
   else (word.of_Z 0, Some ErrUInt64TooBig)).
Proof.
  intros Hs Hk. split.
  - destruct (Z.ltb_spec (value s) (2 ^ 64)) as [Hlt|Hge].
    + assert (Hv : 0 <= value s < 2 ^ 64) by (unfold canonical in Hs; lia).
      pose proof (le_UInt64_of_64 (word.of_Z (value s))) as H.
      rewrite (word64_unsigned_of_Z _ Hv) in H.
      destruct s as [[v|v]]; unfold value in *; cbn [ecc.inner] in *;
        unfold ecc.Scalar_UInt64, iScalar.UInt64, iScalar.query;
        cbn [ecc.inner].
      * rewrite ristretto_UInt64_edwards, H. reflexivity.
      * rewrite H. reflexivity.
    + destruct (Scalar_UInt64_error s) as [Hnone|Herr]; [|exact Herr].
      exfalso. apply Scalar_UInt64_succeeds_iff in Hnone.
      pose proof l_lt_256.
      apply (high_bytes_not_zero (value s));
        [unfold canonical in Hs; lia|].
      destruct s as [[v|v]]; exact Hnone.
  - destruct (Z.ltb_spec k (2 ^ 64)) as [Hlt|Hge].
    + assert (Hv : 0 <= k < 2 ^ 64) by lia.
      pose proof (secp256k1_SetUInt64_UInt64 k (word.of_Z k)) as H.
      unfold secp256k1.SetUInt64, secp256k1_provider.SetUInt64 in H.
      rewrite (word64_unsigned_of_Z _ Hv), Z.mod_small in H by lia.
      exact H.
    + destruct (secp256k1_UInt64_error k) as [Hnone|Herr]; [|exact Herr].
      exfalso. apply secp256k1_UInt64_succeeds_iff in Hnone.
      unfold secp256k1.Encode, secp256k1_provider.Encode in Hnone.
      rewrite firstn_rev, length_le_split in Hnone.
      change (32 - 24)%nat with 8%nat in Hnone.
      apply Forall_rev in Hnone. rewrite rev_involutive in Hnone.
      assert (Ho : secp256k1_provider.order < 2 ^ 256) by reflexivity.
      apply (high_bytes_not_zero k); [lia|exact Hnone].
Qed.

Lemma UInt64_by_magnitude_witness :
  ecc.Scalar_UInt64 (edwards_scalar (2 ^ 64))
  = (word.of_Z 0, Some (Errorf "" ErrUInt64TooBig)).
Proof.
  apply (proj1 (UInt64_by_magnitude (edwards_scalar (2 ^ 64)) 1
                  (conj (Zle_bool_imp_le 0 (2 ^ 64) eq_refl) eq_refl)
                  (conj (Zle_bool_imp_le 0 1 eq_refl) eq_refl))).
Defined.

(** X11: [SetUInt64] makes the encoding the eight bytes of the integer
    padded with 24 zero bytes: little-endian bytes then zeros on the
    little-endian backends, zeros then big-endian bytes on secp256k1. *)
Theorem SetUInt64_encoding
  (s : ecc.Scalar) (k : secp256k1.Scalar) (i : Naive.word64) :
  (exists s', ecc.Scalar_SetUInt64 s i = Return s' /\
              ecc.Scalar_Encode s'
              = le_split 8 (word.unsigned i) ++ repeat Byte.x00 24) /\
  secp256k1.Encode (secp256k1.SetUInt64 k i)
  = repeat Byte.x00 24 ++ rev (le_split 8 (word.unsigned i)).
Proof.
  pose proof (word64_range i) as Hi. split.
  - destruct (Scalar_SetUInt64_UInt64 s i) as [s' [Hset [_ [Hv _]]]].
    exists s'. split; [exact Hset|].
    rewrite <- le_split_32_of_64 by exact Hi. rewrite <- Hv.
    destruct s' as [[v|v]]; reflexivity.
  - unfold secp256k1.Encode, secp256k1.SetUInt64, secp256k1_provider.Encode,
      secp256k1_provider.SetUInt64.
    assert (Ho : 2 ^ 64 < secp256k1_provider.order) by reflexivity.
    rewrite Z.mod_small by lia.
    rewrite le_split_32_of_64 by exact Hi.
    now rewrite rev_app_distr, rev_repeat.
Qed.

(** ** Failures of the element decoder *)

(** X12: [Decode] on an element changes the receiver only when it succeeds.
    The empty input fails with [ErrParamInvalidPointEncoding]; an input the
    provider rejects fails with the provider's error; an input the provider
    decodes to a point equal to the identity fails with [ErrIdentity], also
    when the input is not the canonical encoding of the identity; any other
    point the provider decodes becomes the receiver. *)
Theorem Element_Decode_failures
  (provider : ed.PointProvider) (recv : ecc.Element) (data : list byte) :
  (forall r err, ecc.Element_Decode recv data = (r, Some err) -> r = recv) /\
  ecc.Element_Decode recv []
  = (recv, Some (Errorf "element Decode: " ErrParamInvalidPointEncoding)) /\
  (data <> [] ->
   forall q perr,
     ed.SetBytes ed.NewIdentityPoint data = (q, Some perr) ->
     ecc.Element_Decode recv data
     = (recv, Some (Errorf "element Decode: " (Errorf "" perr)))) /\
  (data <> [] ->
   forall q,
     ed.SetBytes ed.NewIdentityPoint data = (q, None) ->
     ecc.Element_Decode recv data
     = if ed.Point_Equal q ed.NewIdentityPoint =? 1
       then (recv, Some (Errorf "element Decode: "
                           (Errorf "invalid edwards25519 encoding: "
                              ErrIdentity)))
       else (ecc.newPoint q, None)).
Proof.
  destruct recv as [p].
  unfold ecc.Element_Decode, edwards25519.Element_Decode,
    edwards25519.decodeElement. cbn [ecc.point].
  split; [|split; [reflexivity|split]].
  - intros r err.
    destruct (Nat.eqb (length data) 0);
      [intros H; injection H as <- _; reflexivity|].
    destruct (ed.SetBytes ed.NewIdentityPoint data) as [q [perr|]];
      [intros H; injection H as <- _; reflexivity|].
    destruct (ed.Point_Equal q ed.NewIdentityPoint =? 1);
      [intros H; injection H as <- _; reflexivity|discriminate].
  - intros Hne q perr Hset.
    destruct data as [|b data]; [contradiction|]. cbn [length Nat.eqb].
    rewrite Hset. reflexivity.
  - intros Hne q Hset.
    destruct data as [|b data]; [contradiction|]. cbn [length Nat.eqb].
    rewrite Hset.
    destruct (ed.Point_Equal q ed.NewIdentityPoint =? 1); reflexivity.
Qed.

(** The identity with the sign bit set, 01 00 .. 00 80, is not its
    canonical encoding; the executable provider decodes it to the identity
    and [Decode] rejects it. *)
Lemma Element_Decode_failures_witness :
  let data := Byte.x01 :: repeat Byte.x00 30 ++ [Byte.x80] in
  data <> ecc.Element_Encode affine_O /\
  ecc.Element_Decode affine_B data
  = (affine_B, Some (Errorf "element Decode: "
                       (Errorf "invalid edwards25519 encoding: " ErrIdentity))).
Proof.
  cbv zeta. split; [vm_compute; discriminate|].
  refine (proj2 (proj2 (proj2 (Element_Decode_failures affine.provider affine_B
            (Byte.x01 :: repeat Byte.x00 30 ++ [Byte.x80])))) _
            affine.identity _).
  - discriminate.
  - vm_compute. reflexivity.
Defined.

(** ** Random scalars *)

Lemma edwards_Random_step (fuel : nat) (entropy : list byte) (s : Z) :
  edwards25519.Random_loop (S fuel) entropy s =
  if Nat.leb 64 (length entropy) then
    if uniform (firstn 64 entropy) =? 0
    then edwards25519.Random_loop fuel (skipn 64 entropy)
           (uniform (firstn 64 entropy))
    else Some (Return (uniform (firstn 64 entropy), skipn 64 entropy))
  else None.
Proof.
  cbn [edwards25519.Random_loop].
  unfold RandomBytes, edwards25519.inputLength.
  destruct (Nat.leb_spec 64 (length entropy)) as [Hlen|Hlen]; [|reflexivity].
  unfold ed.SetUniformBytes.
  rewrite length_firstn, Nat.min_l by exact Hlen. cbn [Nat.eqb negb].
  fold (uniform (firstn 64 entropy)).
  unfold edwards25519.IsZero, ed.Equal, ed.NewScalar.
  destruct (uniform (firstn 64 entropy) =? 0); reflexivity.
Qed.

Lemma ristretto_Random_loop_edwards (fuel : nat) :
  forall entropy s,
    ristretto.Random_loop fuel entropy s
    = edwards25519.Random_loop fuel entropy s.
Proof.
  induction fuel as [|fuel IH]; intros entropy s; [reflexivity|].
  rewrite edwards_Random_step. cbn [ristretto.Random_loop].
  unfold RandomBytes, ristretto.inputLength.
  destruct (Nat.leb_spec 64 (length entropy)) as [Hlen|Hlen]; [|reflexivity].
  unfold ristretto255.FromUniformBytes.
  rewrite length_firstn, Nat.min_l by exact Hlen. cbn [Nat.eqb negb].
  fold (uniform (firstn 64 entropy)).
  unfold ristretto.IsZero, ristretto255.Equal, ristretto.scZero,
    ristretto255.NewScalar.
  destruct (uniform (firstn 64 entropy) =? 0); [|reflexivity].
  cbn [Z.eqb negb]. apply IH.
Qed.

Lemma uniform_range (x : list byte) : 0 <= uniform x < ed.l.
Proof. apply Z.mod_pos_bound, l_pos. Qed.

Lemma Scalar_Random_edwards (fuel : nat) (entropy : list byte) (s : ecc.Scalar) :
  ecc.Scalar_Random fuel entropy s =
  option_map (fun m => r <- m ;; Return (with_value s (fst r), snd r))
             (edwards25519.Random_loop fuel entropy (value s)).
Proof.
  destruct s as [[v|v]];
    unfold ecc.Scalar_Random, iScalar.Random, value, with_value;
    cbn [ecc.inner]; unfold ristretto.Random, edwards25519.Random;
    rewrite ?ristretto_Random_loop_edwards;
    destruct (edwards25519.Random_loop fuel entropy v) as [[[r rest]|err]|];
    reflexivity.
Qed.

Lemma edwards_Random_nonzero (fuel : nat) :
  forall entropy s m,
    edwards25519.Random_loop fuel entropy s = Some m ->
    exists r rest,
      m = Return (r, rest) /\ r <> 0 /\ 0 <= r < ed.l /\
      (length rest < length entropy)%nat.
Proof.
  induction fuel as [|fuel IH]; intros entropy s m; [discriminate|].
  rewrite edwards_Random_step.
  destruct (Nat.leb_spec 64 (length entropy)) as [Hlen|Hlen]; [|discriminate].
  assert (Hskip : (length (skipn 64 entropy) < length entropy)%nat)
    by (rewrite length_skipn; lia).
  destruct (Z.eqb_spec (uniform (firstn 64 entropy)) 0) as [Hz|Hnz].
  - intros H. destruct (IH _ _ _ H) as [r [rest [Hm [Hr [Hc Hl]]]]].
    exists r, rest. repeat split; try assumption; lia.
  - intros H. injection H as <-.
    exists (uniform (firstn 64 entropy)), (skipn 64 entropy).
    pose proof (uniform_range (firstn 64 entropy)).
    repeat split; try assumption; lia.
Qed.

(** X13: whenever [Random] returns, it returns a scalar that is not zero,
    canonical and of the receiver's group, having consumed entropy; it
    never panics. *)
Theorem Random_returns_nonzero
  (fuel : nat) (entropy : list byte) (s : ecc.Scalar)
  (m : outcome (ecc.Scalar * list byte)) :
  ecc.Scalar_Random fuel entropy s = Some m ->
  exists r rest,
    m = Return (r, rest) /\
    ecc.Scalar_IsZero r = false /\
    value r <> 0 /\ canonical r /\ same_group r s = true /\
    (length rest < length entropy)%nat.
Proof.
  rewrite Scalar_Random_edwards.
  destruct (edwards25519.Random_loop fuel entropy (value s)) as [m'|] eqn:E;
    [|discriminate].
  destruct (edwards_Random_nonzero _ _ _ _ E) as [r [rest [-> [Hr [Hc Hl]]]]].
  cbn [option_map internal.bind fst snd]. intros H. injection H as <-.
  exists (with_value s r), rest.
  split; [reflexivity|].
  destruct s as [[v|v]]; unfold with_value, canonical, value; cbn [ecc.inner];
    unfold ecc.Scalar_IsZero, iScalar.IsZero, iScalar.query, same_group,
      ristretto_scalar, edwards_scalar; cbn [ecc.inner];
    unfold ristretto.IsZero, edwards25519.IsZero, ristretto255.Equal,
      ed.Equal, ristretto.scZero, ristretto255.NewScalar, ed.NewScalar;
    (destruct (Z.eqb_spec r 0); [contradiction|]).
  all: split; [reflexivity|]; split; [exact Hr|]; split; [exact Hc|].
  all: split; [reflexivity|exact Hl].
Qed.

Lemma Random_returns_nonzero_witness :
  exists r rest,
    Return (edwards_scalar 1, repeat Byte.x01 8) = Return (r, rest) /\
    ecc.Scalar_IsZero r = false /\
    value r <> 0 /\ canonical r /\ same_group r (edwards_scalar 0) = true /\
    (length rest < length (Byte.x01 :: repeat Byte.x00 63 ++ repeat Byte.x01 8))%nat.
Proof.
  apply (Random_returns_nonzero 1
           (Byte.x01 :: repeat Byte.x00 63 ++ repeat Byte.x01 8)
           (edwards_scalar 0)).
  vm_compute. reflexivity.
Defined.

(** X14: [Random] returns the first 64-byte sample of the entropy that does
    not reduce to zero, with the entropy after it, provided it may run one
    iteration more than there are samples reducing to zero before it. *)
Theorem Random_first_nonzero_sample
  (fuel : nat) (zeros : list (list byte)) (sample rest : list byte)
  (s : ecc.Scalar) :
  Forall (fun x => length x = 64%nat /\ uniform x = 0) zeros ->
  length sample = 64%nat -> uniform sample <> 0 ->
  (length zeros < fuel)%nat ->
  ecc.Scalar_Random fuel (concat zeros ++ sample ++ rest) s
  = Some (Return (with_value s (uniform sample), rest)).
Proof.
  intros Hzeros Hlen Hnz Hfuel. rewrite Scalar_Random_edwards.
  assert (H : forall v,
             edwards25519.Random_loop fuel (concat zeros ++ sample ++ rest) v
             = Some (Return (uniform sample, rest))).
  { revert fuel Hfuel.
    induction Hzeros as [|z zeros [Hz64 Hz0] _ IH]; intros fuel Hfuel v.
    - destruct fuel as [|fuel]; [cbn [length] in Hfuel; lia|].
      rewrite edwards_Random_step. cbn [concat app].
      rewrite length_app, Hlen. cbn [Nat.add Nat.leb].
      rewrite (firstn_length_app sample rest 64 Hlen),
        (skipn_length_app sample rest 64 Hlen).
      destruct (Z.eqb_spec (uniform sample) 0); [contradiction|reflexivity].
    - destruct fuel as [|fuel]; [cbn [length] in Hfuel; lia|].
      cbn [length] in Hfuel.
      rewrite edwards_Random_step. cbn [concat]. rewrite <- app_assoc.
      rewrite length_app, Hz64. cbn [Nat.add Nat.leb].
      rewrite (firstn_length_app z _ 64 Hz64), (skipn_length_app z _ 64 Hz64).
      rewrite Hz0. cbn [Z.eqb]. apply IH. lia. }
  rewrite H. reflexivity.
Qed.

Lemma Random_first_nonzero_sample_witness :
  ecc.Scalar_Random 2
    (concat [repeat Byte.x00 64] ++ (Byte.x05 :: repeat Byte.x00 63) ++ [])
    (ristretto_scalar 9)
  = Some (Return (with_value (ristretto_scalar 9)
                    (uniform (Byte.x05 :: repeat Byte.x00 63)), [])).
Proof.
  apply (Random_first_nonzero_sample 2 [repeat Byte.x00 64]
           (Byte.x05 :: repeat Byte.x00 63) [] (ristretto_scalar 9)).
  - constructor; [split; reflexivity|constructor].
  - reflexivity.
  - vm_compute. discriminate.
  - cbn [length]. lia.
Defined.

(** ** Hexadecimal and binary marshalling *)

Lemma length_list_byte_of_string (h : string) :
  length (list_byte_of_string h) = String.length h.
Proof.
  unfold list_byte_of_string. rewrite length_map.
  induction h as [|c h IH]; [reflexivity|].
  cbn [list_ascii_of_string length String.length]. now rewrite IH.
Qed.

Lemma length_string_of_list_byte (bs : list byte) :
  String.length (string_of_list_byte bs) = length bs.
Proof.
  rewrite <- length_list_byte_of_string.
  now rewrite list_byte_of_string_of_list_byte.
Qed.

Lemma hex_Decode_pair (p q : byte) (rest : list byte) :
  hex.Decode (p :: q :: rest) =
  if hex.reverseHexTable p >? 15 then ([], Some (hex.InvalidByteError p))
  else if hex.reverseHexTable q >? 15
       then ([], Some (hex.InvalidByteError q))
       else let '(dst, err) := hex.Decode rest in
            (byte.of_Z (Z.lor (Z.shiftl (hex.reverseHexTable p) 4)
                              (hex.reverseHexTable q)) :: dst, err).
Proof. reflexivity. Qed.

Lemma hex_digits_of_byte (v : byte) :
  (hex.reverseHexTable
    (index hex.hextable (Z.to_nat (Z.shiftr (u8 v) 4))) >? 15) = false /\
  (hex.reverseHexTable
    (index hex.hextable (Z.to_nat (Z.land (u8 v) 15))) >? 15) = false /\
  byte.of_Z
    (Z.lor (Z.shiftl (hex.reverseHexTable
                        (index hex.hextable (Z.to_nat (Z.shiftr (u8 v) 4)))) 4)
           (hex.reverseHexTable
              (index hex.hextable (Z.to_nat (Z.land (u8 v) 15))))) = v.
Proof. destruct v; vm_compute; repeat split. Qed.

Lemma hex_Decode_Encode (bs : list byte) :
  hex.Decode (hex.Encode bs) = (bs, None).
Proof.
  induction bs as [|v bs IH]; [reflexivity|].
  cbn [hex.Encode]. rewrite hex_Decode_pair.
  destruct (hex_digits_of_byte v) as [-> [-> ->]].
  rewrite IH. reflexivity.
Qed.

Lemma hex_Encode_length (bs : list byte) :
  length (hex.Encode bs) = (2 * length bs)%nat.
Proof.
  induction bs as [|v bs IH]; [reflexivity|].
  cbn [hex.Encode length]. rewrite IH. lia.
Qed.

Lemma hex_digit_lower (c : byte) :
  (hex.reverseHexTable c >? 15) = false ->
  0 <= hex.reverseHexTable c <= 15 /\
  index hex.hextable (Z.to_nat (hex.reverseHexTable c)) = lower c.
Proof.
  destruct c; vm_compute; intros H; try discriminate H;
    (split; [split; discriminate|reflexivity]).
Qed.

Lemma hex_nibbles (a b : Z) :
  0 <= a <= 15 -> 0 <= b <= 15 ->
  Z.shiftr (u8 (byte.of_Z (Z.lor (Z.shiftl a 4) b))) 4 = a /\
  Z.land (u8 (byte.of_Z (Z.lor (Z.shiftl a 4) b))) 15 = b.
Proof.
  intros Ha Hb.
  assert (Ea : a = 0 \/ a = 1 \/ a = 2 \/ a = 3 \/ a = 4 \/ a = 5 \/ a = 6 \/
               a = 7 \/ a = 8 \/ a = 9 \/ a = 10 \/ a = 11 \/ a = 12 \/
               a = 13 \/ a = 14 \/ a = 15) by lia.
  assert (Eb : b = 0 \/ b = 1 \/ b = 2 \/ b = 3 \/ b = 4 \/ b = 5 \/ b = 6 \/
               b = 7 \/ b = 8 \/ b = 9 \/ b = 10 \/ b = 11 \/ b = 12 \/
               b = 13 \/ b = 14 \/ b = 15) by lia.
  clear Ha Hb.
  repeat (destruct Ea as [Ea|Ea]); subst a;
    repeat (destruct Eb as [Eb|Eb]); subst b; split; reflexivity.
Qed.

(** Whatever [hex.Decode] accepts, [hex.Encode] maps back to the input in
    lower case. *)
Lemma hex_Encode_Decode (n : nat) :
  forall src dst,
    (length src <= n)%nat ->
    hex.Decode src = (dst, None) ->
    hex.Encode dst = map lower src /\ length src = (2 * length dst)%nat.
Proof.
  induction n as [|n IH]; intros src dst Hn H.
  - destruct src; [|cbn [length] in Hn; lia].
    injection H as <-. split; reflexivity.
  - destruct src as [|p [|q rest]].
    + injection H as <-. split; reflexivity.
    + cbn [hex.Decode] in H.
      destruct (hex.reverseHexTable p >? 15); discriminate H.
    + rewrite hex_Decode_pair in H.
      destruct (hex.reverseHexTable p >? 15) eqn:Hp; [discriminate H|].
      destruct (hex.reverseHexTable q >? 15) eqn:Hq; [discriminate H|].
      destruct (hex.Decode rest) as [dst' err] eqn:Hrest.
      destruct (hex_digit_lower p Hp) as [Hpr Hpl].
      destruct (hex_digit_lower q Hq) as [Hqr Hql].
      destruct (hex_nibbles _ _ Hpr Hqr) as [Hhi Hlo].
      remember (byte.of_Z (Z.lor (Z.shiftl (hex.reverseHexTable p) 4)
                                 (hex.reverseHexTable q))) as v eqn:Hv.
      injection H as <- ->.
      cbn [length] in Hn.
      destruct (IH rest dst' ltac:(lia) Hrest) as [IH1 IH2].
      cbn [hex.Encode map length].
      rewrite Hhi, Hlo, Hpl, Hql, IH1, IH2. split; [reflexivity|lia].
Qed.

Lemma iScalar_Decode_cases (s : ecc.Scalar) (data : list byte) :
  iScalar.Decode (ecc.inner s) data =
  if Nat.eqb (length data) 0 then (ecc.inner s, Some ErrParamNilScalar)
  else if negb (Nat.eqb (length data) 32) then
    (ecc.inner s, Some ErrParamScalarLength)
  else if ed.l <=? le_combine data then
    (ecc.inner s, Some (Errorf "" invalid_scalar_encoding))
  else
    (iScalar.lift (fun _ => le_combine data) (fun _ => le_combine data)
                  (ecc.inner s), None).
Proof.
  destruct s as [[v|v]];
    unfold iScalar.Decode, iScalar.lift_error;
    cbn [ecc.inner]; unfold ristretto.Decode, edwards25519.Decode;
    rewrite ?ristretto_decodeScalar_edwards, edwards_decodeScalar_cases;
    destruct (Nat.eqb (length data) 0); try reflexivity;
    destruct (Nat.eqb (length data) 32); try reflexivity;
    cbn [negb]; destruct (ed.l <=? le_combine data); reflexivity.
Qed.

Lemma Scalar_DecodeHex_cases (s : ecc.Scalar) (h : string) :
  ecc.Scalar_DecodeHex s h =
  match hex.DecodeString h with
  | (_, Some err) => (s, Some (Errorf "scalar DecodeHex: " (Errorf "" err)))
  | (b, None) =>
      match iScalar.Decode (ecc.inner s) b with
      | (r, Some err) =>
          (ecc.newScalar r, Some (Errorf "scalar DecodeHex: " err))
      | (r, None) => (ecc.newScalar r, None)
      end
  end.
Proof.
  destruct s as [[v|v]];
    unfold ecc.Scalar_DecodeHex, iScalar.DecodeHex, iScalar.Decode,
      iScalar.lift_error; cbn [ecc.inner];
    unfold ristretto.DecodeHex, edwards25519.DecodeHex;
    destruct (hex.DecodeString h) as [b [err|]]; reflexivity.
Qed.

Lemma Scalar_Encode_le_split (s : ecc.Scalar) :
  ecc.Scalar_Encode s = le_split 32 (value s).
Proof. destruct s as [[v|v]]; reflexivity. Qed.

Lemma iScalar_Decode_Encode (recv s : ecc.Scalar) :
  canonical s -> same_group recv s = true ->
  iScalar.Decode (ecc.inner recv) (ecc.Scalar_Encode s) = (ecc.inner s, None).
Proof.
  intros Hs Hg.
  rewrite iScalar_Decode_cases, Scalar_Encode_le_split, length_le_split,
    le_combine_split_32 by exact Hs.
  cbn [Nat.eqb negb].
  destruct (Z.leb_spec ed.l (value s)) as [Hl|Hl];
    [unfold canonical in Hs; lia|].
  destruct recv as [[r|r]], s as [[v|v]]; try discriminate; reflexivity.
Qed.

(** X15: the hexadecimal and the binary marshalling of a scalar both decode
    back to the scalar; the hexadecimal form has 64 characters and binary
    marshalling never fails. *)
Theorem Scalar_marshalling_roundtrip (recv s : ecc.Scalar) :
  canonical s -> same_group recv s = true ->
  ecc.Scalar_DecodeHex recv (ecc.Scalar_Hex s) = (s, None) /\
  String.length (ecc.Scalar_Hex s) = 64%nat /\
  ecc.Scalar_MarshalBinary s = (ecc.Scalar_Encode s, None) /\
  ecc.Scalar_UnmarshalBinary recv (fst (ecc.Scalar_MarshalBinary s))
  = (s, None).
Proof.
  intros Hs Hg.
  assert (Hhex : ecc.Scalar_Hex s = hex.EncodeToString (ecc.Scalar_Encode s))
    by (destruct s as [[v|v]]; reflexivity).
  split; [|split; [|split]].
  - rewrite Scalar_DecodeHex_cases, Hhex.
    unfold hex.DecodeString, hex.EncodeToString.
    rewrite list_byte_of_string_of_list_byte, hex_Decode_Encode.
    rewrite (iScalar_Decode_Encode recv s Hs Hg).
    destruct s as [i]; reflexivity.
  - rewrite Hhex. unfold hex.EncodeToString.
    rewrite length_string_of_list_byte, hex_Encode_length,
      Scalar_Encode_le_split, length_le_split. reflexivity.
  - reflexivity.
  - unfold ecc.Scalar_UnmarshalBinary, ecc.Scalar_MarshalBinary. cbn [fst].
    fold (ecc.Scalar_Encode s).
    rewrite (iScalar_Decode_Encode recv s Hs Hg).
    destruct s as [i]; reflexivity.
Qed.

Lemma Scalar_marshalling_roundtrip_witness :
  ecc.Scalar_DecodeHex (ristretto_scalar 0) (ecc.Scalar_Hex (ristretto_scalar 78125))
  = (ristretto_scalar 78125, None).
Proof.
  apply (Scalar_marshalling_roundtrip (ristretto_scalar 0)
           (ristretto_scalar 78125)).
  - split; [discriminate | reflexivity].
  - reflexivity.
Defined.

(** X16: whatever [DecodeHex] accepts has 64 characters, hexadecimal digits
    of either case: the scalar it returns is canonical, of the receiver's
    group, and its hexadecimal form is the input in lower case. On any error
    the receiver is unchanged. *)
Theorem Scalar_DecodeHex_accepts
  (recv r : ecc.Scalar) (h : string) (e : option error) :
  ecc.Scalar_DecodeHex recv h = (r, e) ->
  match e with
  | None =>
      String.length h = 64%nat /\
      ecc.Scalar_Hex r = ToLower h /\
      canonical r /\ same_group r recv = true
  | Some _ => r = recv
  end.
Proof.
  rewrite Scalar_DecodeHex_cases. unfold hex.DecodeString.
  destruct (hex.Decode (list_byte_of_string h)) as [b [err|]] eqn:Hdec.
  { intros H. injection H as <- <-. reflexivity. }
  rewrite iScalar_Decode_cases.
  destruct (Nat.eqb_spec (length b) 0) as [H0|H0].
  { intros H. injection H as <- <-. destruct recv; reflexivity. }
  destruct (Nat.eqb_spec (length b) 32) as [H32|H32]; cbn [negb].
  2:{ intros H. injection H as <- <-. destruct recv; reflexivity. }
  destruct (Z.leb_spec ed.l (le_combine b)) as [Hl|Hl].
  { intros H. injection H as <- <-. destruct recv; reflexivity. }
  intros H. injection H as <- <-.
  destruct (hex_Encode_Decode _ _ _ (Nat.le_refl _) Hdec) as [Henc Hlen].
  pose proof (le_combine_bound b) as Hb.
  split; [|split; [|split]].
  - rewrite <- length_list_byte_of_string, Hlen, H32. reflexivity.
  - unfold ToLower. rewrite <- Henc.
    destruct recv as [[v|v]]; cbn [ecc.inner iScalar.lift];
      unfold ecc.Scalar_Hex, iScalar.Hex, iScalar.query;
      cbn [ecc.inner];
      unfold ristretto.Hex, edwards25519.Hex, hex.EncodeToString,
        ristretto.Encode, ristretto255.Encode, edwards25519.Encode, ed.Bytes;
      rewrite (split_le_combine' b 32 H32); reflexivity.
  - destruct recv as [[v|v]]; unfold canonical, value;
      cbn [ecc.inner iScalar.lift]; lia.
  - destruct recv as [[v|v]]; reflexivity.
Qed.

Lemma Scalar_DecodeHex_accepts_witness :
  String.length
    "0A0b000000000000000000000000000000000000000000000000000000000000"
  = 64%nat /\
  ecc.Scalar_Hex (edwards_scalar 2826) =
  ToLower "0A0b000000000000000000000000000000000000000000000000000000000000" /\
  canonical (edwards_scalar 2826) /\
  same_group (edwards_scalar 2826) (edwards_scalar 0) = true.
Proof.
  apply (Scalar_DecodeHex_accepts (edwards_scalar 0) (edwards_scalar 2826)
           "0A0b000000000000000000000000000000000000000000000000000000000000"
           None).
  vm_compute. reflexivity.
Defined.
